(** * Photoluminescence: the numerical core of [PL/EmissionSpectrum.py]

    A shallow embedding of the class [Photoluminescence] and of
    [CalculateSpectrum] from the point where the input files have been
    read.

    Conventions of the embedding.
    - A numpy [float64] is a real number ([R]) and a [complex128] is a pair
      of reals ([C]): arithmetic is exact.  Rounding, [nan] and [inf] are
      outside the model, except for the grid of [IV], whose length depends on
      rounding: it is also given on binary64 floats ([Float64.IV]).
    - A 1-D numpy array is a [list]; an array of shape (n, 3) is a list of
      [vec3]; the eigenvector array of shape (modes, atoms, 3) is a list of
      lists of [vec3].
    - A Python exception is the [Raise] constructor of [result]; the kind of
      the exception is kept. *)

From Stdlib Require Import Reals List Lra Lia ZArith Bool Arith.
From Stdlib Require Import Sorted Permutation.
From Stdlib Require PrimFloat FloatOps SpecFloat.
Import ListNotations.

Open Scope R_scope.

(** ** Exceptions *)

Inductive exn : Type :=
| IndexError
| ValueError
| ZeroDivisionError
| OverflowError.

Inductive result (A : Type) : Type :=
| Ok (a : A)
| Raise (e : exn).

Arguments Ok {A} a.
Arguments Raise {A} e.

Definition bind {A B : Type} (r : result A) (k : A -> result B) : result B :=
  match r with
  | Ok a => k a
  | Raise e => Raise e
  end.

Notation "x <- r ;; k" := (bind r (fun x => k))
  (at level 61, r at next level, right associativity).

Fixpoint mapM {A B : Type} (f : A -> result B) (l : list A) : result (list B) :=
  match l with
  | [] => Ok []
  | a :: l' => b <- f a ;; bs <- mapM f l' ;; Ok (b :: bs)
  end.

(** ** Complex numbers *)

Module Complex.

Record C : Type := mkC { Re : R; Im : R }.

Definition RtoC (x : R) : C := mkC x 0.
Definition C0 : C := RtoC 0.
Definition C1 : C := RtoC 1.
Definition Ci : C := mkC 0 1.

Definition Cadd (a b : C) : C := mkC (Re a + Re b) (Im a + Im b).
Definition Copp (a : C) : C := mkC (- Re a) (- Im a).
Definition Cmul (a b : C) : C :=
  mkC (Re a * Re b - Im a * Im b) (Re a * Im b + Im a * Re b).
Definition Cnorm2 (a : C) : R := Re a * Re a + Im a * Im a.
Definition Cinv (a : C) : C := mkC (Re a / Cnorm2 a) (- Im a / Cnorm2 a).
Definition Cdiv (a b : C) : C := Cmul a (Cinv b).
Definition Cscale (r : R) (a : C) : C := mkC (r * Re a) (r * Im a).
Definition Cexp (a : C) : C :=
  mkC (exp (Re a) * cos (Im a)) (exp (Re a) * sin (Im a)).

Lemma C_eq (a b : C) : Re a = Re b -> Im a = Im b -> a = b.
Proof. destruct a, b; simpl; intros -> ->; reflexivity. Qed.

Lemma Cnorm2_pos (a : C) : a <> C0 -> 0 < Cnorm2 a.
Proof.
  intros Ha. unfold Cnorm2.
  destruct (Req_dec (Re a) 0) as [Hr | Hr];
    destruct (Req_dec (Im a) 0) as [Hi | Hi]; try nra.
  exfalso. apply Ha. apply C_eq; simpl; assumption.
Qed.

Lemma Cdiv_diag (a : C) : a <> C0 -> Cdiv a a = C1.
Proof.
  intros Ha. pose proof (Cnorm2_pos a Ha) as Hn.
  unfold Cnorm2 in Hn.
  apply C_eq; unfold Cdiv, Cmul, Cinv, Cnorm2; simpl; field; lra.
Qed.

Lemma Cdiv_add (a b c : C) : Cdiv (Cadd a b) c = Cadd (Cdiv a c) (Cdiv b c).
Proof. apply C_eq; unfold Cdiv, Cmul, Cadd; simpl; ring. Qed.

Lemma Cdiv_scale (r : R) (a c : C) : Cdiv (Cscale r a) c = Cscale r (Cdiv a c).
Proof. apply C_eq; unfold Cdiv, Cmul, Cscale; simpl; ring. Qed.

Lemma Cdiv_C0 (c : C) : Cdiv C0 c = C0.
Proof. apply C_eq; unfold Cdiv, Cmul, C0, RtoC; simpl; ring. Qed.

End Complex.
Import Complex.

(** ** The scalars a numpy array holds

    [Trapezoidal] is called on real and on complex integrands; what it needs
    from the element type is a sum and the product by a real. *)

Class Scalar (T : Type) : Type := {
  szero : T;
  sadd : T -> T -> T;
  sscale : R -> T -> T
}.

#[export] Instance Scalar_R : Scalar R :=
  {| szero := 0; sadd := Rplus; sscale := Rmult |}.

#[export] Instance Scalar_C : Scalar C :=
  {| szero := C0; sadd := Cadd; sscale := Cscale |}.

(** ** numpy primitives *)

Module Numpy.

(** [np.sum] of a 1-D array. *)
Definition sum {T : Type} `{Scalar T} (l : list T) : T :=
  fold_right sadd szero l.

(** [a[i]] for a non-negative index. *)
Definition getitem {A : Type} (l : list A) (i : nat) : result A :=
  match nth_error l i with
  | Some a => Ok a
  | None => Raise IndexError
  end.

(** [a[-1]]. *)
Definition getlast {A : Type} (l : list A) : result A :=
  match l with
  | [] => Raise IndexError
  | a :: l' => Ok (last l' a)
  end.

(** [a[1:-1]]: never raises. *)
Definition interior {A : Type} (l : list A) : list A :=
  removelast (tl l).

(** [a[idx]] for an array of indices. *)
Definition take {A : Type} (l : list A) (idx : list nat) : result (list A) :=
  mapM (getitem l) idx.

(** [a[mask]] for a boolean array: the shapes must agree. *)
Fixpoint compress {A : Type} (l : list A) (mask : list bool) : list A :=
  match l, mask with
  | a :: l', b :: mask' =>
      if b then a :: compress l' mask' else compress l' mask'
  | _, _ => []
  end.

Definition bool_index {A : Type} (l : list A) (mask : list bool)
  : result (list A) :=
  if Nat.eqb (length l) (length mask) then Ok (compress l mask)
  else Raise IndexError.

(** An elementwise binary operation on two 1-D arrays, with numpy's
    broadcasting: equal lengths pair up, a length-1 array is stretched,
    anything else is a shape mismatch. *)
Definition broadcast2 {A B X : Type} (f : A -> B -> X)
           (xs : list A) (ys : list B) : result (list X) :=
  if Nat.eqb (length xs) (length ys) then
    Ok (map (fun p => f (fst p) (snd p)) (combine xs ys))
  else
    match xs, ys with
    | [x], _ => Ok (map (f x) ys)
    | _, [y] => Ok (map (fun x => f x y) xs)
    | _, _ => Raise ValueError
    end.

(** The least integer not below [x]. *)
Definition ceil (x : R) : Z := (- Int_part (- x))%Z.

(** [np.arange(start, stop, step)] for a non-zero step, in exact
    arithmetic: [ceil((stop - start)/step)] samples [start + i*step], none
    when that count is not positive.  [Float64.arange] is the same function
    with the rounding of binary64. *)
Definition arange (start stop step : R) : list R :=
  map (fun i => start + INR i * step)
      (seq 0 (Z.to_nat (ceil ((stop - start) / step)))).

End Numpy.

(** ** [class Photoluminescence] *)

Definition Rleb (x y : R) : bool := if Rle_dec x y then true else false.

(** [IV(iv_low, iv_high, rv_high)].  The step [(2*np.pi)/(2*rv_high)] is a
    division of Python floats ([rv_high] comes from [TimeScaling] of a Python
    number): it raises on a zero divisor. *)
Definition IV (iv_low iv_high rv_high : R) : result (list R) :=
  if Req_dec_T (2 * rv_high) 0 then Raise ZeroDivisionError
  else
    let div := (2 * PI) / (2 * rv_high) in
    Ok (Numpy.arange iv_low iv_high div).

(** [Trapezoidal(integrand, iv, equally_spaced)].  [div] is computed before
    the branch is chosen, so both branches need [iv[1]]. *)
Definition Trapezoidal {T : Type} `{Scalar T}
           (integrand : list T) (iv : list R) (equally_spaced : bool)
  : result T :=
  iv1 <- Numpy.getitem iv 1 ;;
  iv0 <- Numpy.getitem iv 0 ;;
  let div := iv1 - iv0 in
  if equally_spaced then
    f0 <- Numpy.getitem integrand 0 ;;
    fl <- Numpy.getlast integrand ;;
    Ok (sscale (div / 2)
               (sadd (sadd (Numpy.sum (Numpy.interior integrand)) f0) fl))
  else
    terms <- mapM (fun i =>
                     x1 <- Numpy.getitem iv (i + 1) ;;
                     x0 <- Numpy.getitem iv i ;;
                     f1 <- Numpy.getitem integrand (i + 1) ;;
                     f0 <- Numpy.getitem integrand i ;;
                     Ok (sscale ((x1 - x0) / 2) (sadd f1 f0)))
                  (seq 0 (length iv - 1)) ;;
    Ok (Numpy.sum terms).

(** [FreqToEnergy(freqs)]. *)
Definition FreqToEnergy (freqs : list R) : list R :=
  map (fun f => 4.13566 * f) freqs.

(** [TimeScaling(t, reverse)] on a scalar. *)
Definition TimeScaling (t : R) (reverse : bool) : R :=
  if Bool.eqb reverse false then t / 658.2119 else t * 658.2119.

(** [TimeScaling(t, reverse)] on an array. *)
Definition TimeScaling_array (t : list R) (reverse : bool) : list R :=
  map (fun x => TimeScaling x reverse) t.

(** [PartialHR(freqs, qk)]. *)
Definition PartialHR_term (f q : R) : R :=
  2 * PI * f * (q ^ 2) * 0.166 / (2 * 1.05457).

Definition PartialHR (freqs qk : list R) : result (list R) :=
  Numpy.broadcast2 PartialHR_term freqs qk.

(** *** The discrete transforms behind [np.fft] *)

Module FFT.

(** The twiddle factor [exp(sign * 2*pi*i * j*k / n)]. *)
Definition twiddle (sign : R) (n j k : nat) : C :=
  Cexp (mkC 0 (sign * (2 * PI * INR j * INR k / INR n))).

Definition dft_sum (sign : R) (x : list C) (k : nat) : C :=
  Numpy.sum
    (map (fun p => Cmul (snd p) (twiddle sign (length x) (fst p) k))
         (combine (seq 0 (length x)) x)).

(** The forward sums [X_k = sum_j x_j exp(-2 pi i j k / n)]. *)
Definition fft (x : list C) : list C :=
  map (dft_sum (-1) x) (seq 0 (length x)).

(** The inverse sums [x_k = (1/n) sum_j X_j exp(+2 pi i j k / n)]. *)
Definition ifft (x : list C) : list C :=
  map (fun k => Cscale (1 / INR (length x)) (dft_sum 1 x k))
      (seq 0 (length x)).

(** [np.fft.fft] and [np.fft.ifft] refuse an empty input ("Invalid number
    of FFT data points (0)") and compute the sums on anything else. *)
Definition checked (sums : list C -> list C) (x : list C)
  : result (list C) :=
  match x with
  | [] => Raise ValueError
  | _ :: _ => Ok (sums x)
  end.

Definition np_fft : list C -> result (list C) := checked fft.

Definition np_ifft : list C -> result (list C) := checked ifft.

(** [np.fft.fftfreq(n, d)]: the integers [0, 1, ..., (n-1)//2, -(n//2),
    ..., -1] times [1.0/(n*d)]. *)
Definition fftfreq_int (n k : nat) : Z :=
  if Nat.ltb k ((n - 1) / 2 + 1) then Z.of_nat k
  else (Z.of_nat k - Z.of_nat n)%Z.

Definition fftfreq (n : nat) (d : R) : list R :=
  map (fun k => IZR (fftfreq_int n k) * (1 / (INR n * d))) (seq 0 n).

End FFT.

(** [np.argsort]: the indices that put the array in ascending order, by
    insertion (equal keys keep their order). *)
Fixpoint insert_by (key : nat -> R) (i : nat) (l : list nat) : list nat :=
  match l with
  | [] => [i]
  | j :: l' =>
      if Rleb (key j) (key i) then j :: insert_by key i l'
      else i :: j :: l'
  end.

Definition argsort (l : list R) : list nat :=
  fold_left (fun acc i => insert_by (fun k => nth k l 0) i acc)
            (seq 0 (length l)) [].

(** The phase array [np.exp(s*1j*rv*x0)], [s] being [-1] or [1]. *)
Definition phase (s : R) (rv : list R) (x0 : R) : list C :=
  map (fun r => Cexp (Cscale x0 (Cscale r (Cscale s Ci)))) rv.

(** The body shared, line for line, by [Fourier] and [InverseFourier]: they
    differ in the transform called and in the sign of the phase. *)
Definition transform_on_grid (tr : list C -> result (list C)) (s : R)
           (iv : list R) (function : list C) : result (list R * list C) :=
  iv1 <- Numpy.getitem iv 1 ;;
  iv0 <- Numpy.getitem iv 0 ;;
  let div := iv1 - iv0 in
  let rv := map (fun x => 2 * PI * x) (FFT.fftfreq (length iv) div) in
  let sort := argsort rv in
  rv <- Numpy.take rv sort ;;
  DFT <- tr function ;;
  DFT <- Numpy.take DFT sort ;;
  x0 <- Numpy.getitem iv 0 ;;
  DFT <- Numpy.broadcast2 Cmul (map (Cscale div) DFT) (phase s rv x0) ;;
  Ok (rv, DFT).

(** [Fourier(iv, function)]. *)
Definition Fourier (iv : list R) (function : list C)
  : result (list R * list C) :=
  transform_on_grid FFT.np_fft (-1) iv function.

(** [InverseFourier(iv, function)]. *)
Definition InverseFourier (iv : list R) (function : list C)
  : result (list R * list C) :=
  transform_on_grid FFT.np_ifft 1 iv function.

(** [LuminescenceIntensity(E_meV, A_E, zpl)]. *)
Definition window (zpl : R) (e : R) : bool :=
  Rleb (zpl - 500) e && Rleb e (zpl + 100).

Definition LuminescenceIntensity (E_meV : list R) (A_E : list C) (zpl : R)
  : result (list R * list C) :=
  let mask := map (window zpl) E_meV in
  A_E <- Numpy.bool_index A_E mask ;;
  E_meV <- Numpy.bool_index E_meV mask ;;
  weighted <- Numpy.broadcast2 (fun e a => Cscale (e ^ 3) a) E_meV A_E ;;
  norm <- Trapezoidal weighted E_meV true ;;
  Ok (E_meV, map (fun w => Cdiv w norm) weighted).

(** *** [ConfigCoordinates] *)

Definition vec3 : Type := (R * R * R)%type.

Definition vsub (a b : vec3) : vec3 :=
  let '(ax, ay, az) := a in let '(bx, b_y, bz) := b in
  (ax - bx, ay - b_y, az - bz).

Definition vmul (a b : vec3) : vec3 :=
  let '(ax, ay, az) := a in let '(bx, b_y, bz) := b in
  (ax * bx, ay * b_y, az * bz).

Definition vscale (m : R) (a : vec3) : vec3 :=
  let '(ax, ay, az) := a in (m * ax, m * ay, m * az).

Definition vsum (a : vec3) : R :=
  let '(ax, ay, az) := a in ax + ay + az.

(** [mR_diff * modes[i,:,:]].  [mR_diff] is built by [np.array] from a list
    of rows: from no row at all it has shape (0,), which no (atoms, 3) block
    broadcasts with. *)
Definition mul_rows (mR_diff mode : list vec3) : result (list vec3) :=
  match mR_diff with
  | [] => Raise ValueError
  | _ => Numpy.broadcast2 vmul mR_diff mode
  end.

(** [[masses[i]*R_diff[i,:] for i in range(len(masses))]]. *)
Definition mass_weighted (masses : list R) (R_diff : list vec3)
  : result (list vec3) :=
  mapM (fun i =>
          m <- Numpy.getitem masses i ;;
          r <- Numpy.getitem R_diff i ;;
          Ok (vscale m r))
       (seq 0 (length masses)).

(** [[np.sum(mR_diff*modes[i,:,:]) for i in range(modes.shape[0])]]. *)
Definition project (mR_diff : list vec3) (modes : list (list vec3))
  : result (list R) :=
  mapM (fun mode =>
          prod <- mul_rows mR_diff mode ;;
          Ok (Numpy.sum (map vsum prod)))
       modes.

Definition ConfigCoordinates (masses : list R) (R_es R_gs : list vec3)
           (modes : list (list vec3)) : result (list R) :=
  let masses := map sqrt masses in
  R_diff <- Numpy.broadcast2 vsub R_es R_gs ;;
  mR_diff <- mass_weighted masses R_diff ;;
  project mR_diff modes.

(** ** [CalculateSpectrum]: from the loaded data to the Huang-Rhys factors

    The part of [CalculateSpectrum] between [ReadPhononBands] and the energy
    grid: [int(n/2)] of a length is [n / 2] on [nat]. *)
Definition CalculateSpectrum_HuangRhys
           (masses : list R) (R_es R_gs : list vec3)
           (freqs : list R) (modes : list (list vec3))
  : result (list R * list R * list R) :=
  let freqs := firstn (length freqs / 2) freqs in
  let modes := firstn (length modes / 2) modes in
  let Ek := FreqToEnergy freqs in
  qk <- ConfigCoordinates masses R_es R_gs modes ;;
  Sk <- PartialHR freqs qk ;;
  Ok (Ek, qk, Sk).

(** ** The spectral pipeline *)

(** [np.dot(a, b)] of two 1-D arrays, the first real: the sizes must agree
    (no broadcasting). *)
Definition np_dot {T : Type} `{Scalar T} (a : list R) (b : list T)
  : result T :=
  if Nat.eqb (length a) (length b) then
    Ok (Numpy.sum (map (fun p => sscale (fst p) (snd p)) (combine a b)))
  else Raise ValueError.

(** [Lorentzian(x, x0, sigma)]. *)
Definition Lorentzian (x x0 sigma : R) : R :=
  ((1 / PI) * (sigma * 0.8)) / (((sigma * 0.8) ^ 2) + ((x - x0) ^ 2)).

(** [Gaussian(x, x0, sigma)]. *)
Definition Gaussian (x x0 sigma : R) : R :=
  (1 / sqrt (2 * PI * (sigma ^ 2)))
  * exp ((- ((x - x0) ^ 2)) / (2 * (sigma ^ 2))).

(** [SpectralFunction(Sk, Ek, E_meV_positive, sigma, Lorentz)]: the kernel
    is evaluated at the scalar [i] against the whole array [Ek]. *)
Definition SpectralFunction (Sk Ek E_meV_positive : list R)
           (sigma : R) (Lorentz : bool) : result (list R) :=
  if Bool.eqb Lorentz false then
    mapM (fun i => np_dot Sk (map (fun ek => Gaussian i ek sigma) Ek))
         E_meV_positive
  else
    mapM (fun i => np_dot Sk (map (fun ek => Lorentzian i ek sigma) Ek))
         E_meV_positive.

(** [FourierSpectralFunction(Sk, Ek, S_E, E_meV_positive)]; the real array
    [S_E] enters [np.fft.fft] as a complex one. *)
Definition FourierSpectralFunction (Sk Ek S_E E_meV_positive : list R)
  : result (list R * list C * list C) :=
  p <- Fourier E_meV_positive (map RtoC S_E) ;;
  let '(t_meV, S_t) := p in
  S_t_exact <- mapM (fun i => np_dot Sk (phase (-1) Ek i)) t_meV ;;
  Ok (t_meV, S_t, S_t_exact).

(** [GeneratingFunction(Sk, S_t)]: the real number [np.sum(Sk)] is
    subtracted from the real part. *)
Definition GeneratingFunction (Sk : list R) (S_t : list C) : list C :=
  map (fun s => Cexp (mkC (Re s - Numpy.sum Sk) (Im s))) S_t.

(** [OpticalSpectralFunction(G_t, t_meV, zpl, gamma)].  [1/len(t_meV)] is
    reached only after [Fourier] has returned, hence with a length of at
    least 2. *)
Definition OpticalSpectralFunction (G_t : list C) (t_meV : list R)
           (zpl gamma : R) : result (list R * list C) :=
  shifted <- Numpy.broadcast2 Cmul G_t
               (map (fun t => Cexp (Cscale t (Cscale zpl Ci))) t_meV) ;;
  damped <- Numpy.broadcast2 (fun z r => Cscale r z) shifted
              (map (fun t => exp (- (gamma * Rabs t))) t_meV) ;;
  p <- Fourier t_meV damped ;;
  let '(E_meV, A_E) := p in
  Ok (E_meV, map (Cscale (1 / INR (length t_meV))) A_E).

(** The line [freqs[freqs<0] = 0] of [ReadPhononBands]. *)
Definition clamp_negative (freqs : list R) : list R :=
  map (fun f => if Rlt_dec f 0 then 0 else f) freqs.

(** The energy grid of [CalculateSpectrum]: [Emax] and [IV(0, Emax,
    TimeScaling(tmax))]. *)
Definition CalculateSpectrum_grid (zpl tmax : R) : result (list R) :=
  let Emax := if Req_dec_T zpl 0 then 5000 else 2.5 * zpl in
  let tmax_meV := TimeScaling tmax false in
  IV 0 Emax tmax_meV.

(** The tuple [((Ek, Sk), (E_meV_positive, S_E), (t_fs, S_t, S_t_exact),
    (G_t), (E_meV, A_E), (L_E))] that [CalculateSpectrum] returns. *)
Record spectrum : Type := mkSpectrum {
  out_Ek : list R;
  out_Sk : list R;
  out_E_meV_positive : list R;
  out_S_E : list R;
  out_t_fs : list R;
  out_S_t : list C;
  out_S_t_exact : list C;
  out_G_t : list C;
  out_E_meV : list R;
  out_A_E : list C;
  out_L_E : list C
}.

(** [CalculateSpectrum] after the files are read.  The name [E_meV] is bound
    twice: first to the grid of [A_E], then to the restricted grid that
    [LuminescenceIntensity] returns, and it is the second that is returned
    beside [A_E]. *)
Definition CalculateSpectrum_loaded
           (masses : list R) (R_es R_gs : list vec3)
           (freqs : list R) (modes : list (list vec3))
           (zpl tmax gamma : R) : result spectrum :=
  hr <- CalculateSpectrum_HuangRhys masses R_es R_gs freqs modes ;;
  let '(Ek, qk, Sk) := hr in
  E_meV_positive <- CalculateSpectrum_grid zpl tmax ;;
  S_E <- SpectralFunction Sk Ek E_meV_positive 6 false ;;
  st <- FourierSpectralFunction Sk Ek S_E E_meV_positive ;;
  let '(t_meV, S_t, S_t_exact) := st in
  let G_t := GeneratingFunction Sk S_t in
  a <- OpticalSpectralFunction G_t t_meV zpl gamma ;;
  let '(E_meV, A_E) := a in
  l <- LuminescenceIntensity E_meV A_E zpl ;;
  let '(E_meV, L_E) := l in
  let t_fs := TimeScaling_array t_meV true in
  Ok (mkSpectrum Ek Sk E_meV_positive S_E t_fs S_t S_t_exact G_t
                 E_meV A_E L_E).

(** The projection [ConfigCoordinates] computes when all shapes agree: the
    sum over the atoms of [sqrt(m) * ((R_es - R_gs) . e)]. *)
Definition vdot (a b : vec3) : R := vsum (vmul a b).

Definition projection (masses : list R) (R_es R_gs mode : list vec3) : R :=
  Numpy.sum
    (map (fun p => sqrt (fst (fst p)) * vdot (snd (fst p)) (snd p))
         (combine (combine masses
                           (map (fun q => vsub (fst q) (snd q))
                                (combine R_es R_gs)))
                  mode)).

(** The per-interval trapezoids [((iv[i+1] - iv[i])/2)*(integrand[i+1] +
    integrand[i])], listed by recursion on the grid. *)
Fixpoint interval_terms (iv integrand : list R) : list R :=
  match iv, integrand with
  | x0 :: ((x1 :: _) as iv'), f0 :: ((f1 :: _) as integrand') =>
      (x1 - x0) / 2 * (f1 + f0) :: interval_terms iv' integrand'
  | _, _ => []
  end.

(** The kernel [SpectralFunction] selects, and the sum over the modes that
    one sample of [S(E)] is: [sum_k Sk_k * kernel(E, Ek_k, sigma)]. *)
Definition kernel (Lorentz : bool) : R -> R -> R -> R :=
  if Bool.eqb Lorentz false then Gaussian else Lorentzian.

Definition mode_sum (Lorentz : bool) (sigma : R) (Sk Ek : list R) (E : R)
  : R :=
  Numpy.sum (map (fun p => fst p * kernel Lorentz E (snd p) sigma)
                 (combine Sk Ek)).

(** ** The grid in IEEE binary64 arithmetic

    How many samples [np.arange] returns, and whether the last of them
    stays below [stop], is decided by the rounding of [(stop - start)/step].
    For these two questions [IV] is given a second time, on the binary64
    floats of the processor instead of [R].  Its arguments are Python
    numbers, as in [CalculateSpectrum]. *)

Module Float64.

Import PrimFloat FloatOps SpecFloat.

(** [np.pi]. *)
Definition np_pi : float := 0x1.921fb54442d18p+1%float.

(** [ceil] of a double as an integer; nothing for nan and the
    infinities. *)
Definition ceil (x : float) : option Z :=
  match Prim2SF x with
  | S754_zero _ => Some 0%Z
  | S754_finite sign m e =>
      let whole :=
        if (0 <=? e)%Z then Z.shiftl (Z.pos m) e
        else Z.shiftr (Z.pos m) (- e) in
      let exact :=
        if (0 <=? e)%Z then true
        else Z.eqb (Z.shiftl whole (- e)) (Z.pos m) in
      Some (if sign then (- whole)%Z
            else if exact then whole else (whole + 1)%Z)
  | S754_infinity _ | S754_nan => None
  end.

(** The conversion of a C [npy_intp] index to a double. *)
Definition of_index (i : nat) : float :=
  of_uint63 (Uint63Axioms.of_Z (Z.of_nat i)).

(** The fill of the array: the first two samples are stored as computed,
    the others are [start + i*delta] with [delta = next - start]
    ([DOUBLE_fill]). *)
Definition fill (start next : float) (len : nat) : list float :=
  match len with
  | O => []
  | S O => [start]
  | S (S k) =>
      let delta := (next - start)%float in
      start :: next
        :: map (fun i => (start + of_index i * delta)%float) (seq 2 k)
  end.

(** [np.arange(start, stop, step)] on Python floats: the length is the
    ceiling of the rounded quotient ([_calc_length]), 0 or 1 when that
    quotient underflows to zero, and must fit a C [npy_intp].  The memory
    an array of that length takes is outside the model. *)
Definition arange (start stop step : float) : result (list float) :=
  let span := (stop - start)%float in
  if (step =? 0)%float then Raise ZeroDivisionError
  else
    let value := (span / step)%float in
    match ceil value with
    | None => if is_nan value then Raise ValueError else Raise OverflowError
    | Some len =>
        if (len <? - 2 ^ 63)%Z || (2 ^ 63 - 1 <? len)%Z
        then Raise OverflowError
        else
          let len :=
            if (value =? 0)%float && negb (span =? 0)%float
            then (if get_sign value then 0%Z else 1%Z)
            else len in
          Ok (fill start (start + step)%float (Z.to_nat len))
    end.

(** [IV(iv_low, iv_high, rv_high)]. *)
Definition IV (iv_low iv_high rv_high : float) : result (list float) :=
  if (2 * rv_high =? 0)%float then Raise ZeroDivisionError
  else
    let div := ((2 * np_pi) / (2 * rv_high))%float in
    arange iv_low iv_high div.

End Float64.

(** * Properties *)

(** ** Helper lemmas *)

Lemma bind_Ok {A B : Type} (a : A) (k : A -> result B) :
  bind (Ok a) k = k a.
Proof. reflexivity. Qed.

Lemma ceil_bounds (x : R) :
  IZR (Numpy.ceil x) - 1 < x <= IZR (Numpy.ceil x).
Proof.
  unfold Numpy.ceil. destruct (base_Int_part (- x)) as [Hle Hgt].
  rewrite opp_IZR. lra.
Qed.


Lemma ceil_pos (x : R) : 0 < x -> (0 < Numpy.ceil x)%Z.
Proof.
  intros Hx. destruct (ceil_bounds x) as [_ Hhi].
  apply lt_IZR. lra.
Qed.

Lemma INR_to_nat_ceil (x : R) :
  0 < x -> INR (Z.to_nat (Numpy.ceil x)) = IZR (Numpy.ceil x).
Proof.
  intros Hx. rewrite INR_IZR_INZ. f_equal.
  apply Z2Nat.id. pose proof (ceil_pos x Hx). lia.
Qed.

Lemma arange_length (start stop step : R) :
  length (Numpy.arange start stop step)
  = Z.to_nat (Numpy.ceil ((stop - start) / step)).
Proof. unfold Numpy.arange. rewrite length_map, length_seq. reflexivity. Qed.

Lemma arange_nth (start stop step : R) (i : nat) :
  (i < length (Numpy.arange start stop step))%nat ->
  nth i (Numpy.arange start stop step) 0 = start + INR i * step.
Proof.
  intros Hi. rewrite arange_length in Hi. unfold Numpy.arange.
  set (f := fun k : nat => start + INR k * step).
  rewrite nth_indep with (d' := f 0%nat)
    by (rewrite length_map, length_seq; exact Hi).
  rewrite (map_nth f). rewrite seq_nth by exact Hi. reflexivity.
Qed.

Lemma IV_step (rv : R) : rv <> 0 -> (2 * PI) / (2 * rv) = PI / rv.
Proof. intros Hrv. field. exact Hrv. Qed.

Lemma IV_Ok (low high rv : R) :
  rv <> 0 -> IV low high rv = Ok (Numpy.arange low high (PI / rv)).
Proof.
  intros Hrv. unfold IV.
  destruct (Req_dec_T (2 * rv) 0) as [H0 | _]; [lra |].
  rewrite IV_step by exact Hrv. reflexivity.
Qed.

(** ** The grid *)

(** In exact arithmetic, that is with the samples of [Numpy.arange] computed
    in [R]: for [low < high] and [max_reciprocal > 0], [IV] returns a grid
    whose first sample is [low], whose i-th sample is
    [low + i * pi/max_reciprocal], and all of whose samples are strictly
    below [high].  The binary64 grid below does not keep the last bound. *)
Lemma IV_uniform_grid (low high rv : R) :
  low < high -> 0 < rv ->
  exists g,
    IV low high rv = Ok g /\
    nth_error g 0 = Some low /\
    (forall i, (i < length g)%nat -> nth i g 0 = low + INR i * (PI / rv)) /\
    (forall i, (S i < length g)%nat ->
               nth (S i) g 0 - nth i g 0 = PI / rv) /\
    (forall x, In x g -> x < high) /\
    ~ (exists x, In x g /\ high <= x).
Proof.
  intros Hlh Hrv. pose proof PI_RGT_0 as HPI.
  assert (Hstep : 0 < PI / rv)
    by (apply Rdiv_lt_0_compat; [exact HPI | exact Hrv]).
  assert (Hq : 0 < (high - low) / (PI / rv))
    by (apply Rdiv_lt_0_compat; lra).
  set (g := Numpy.arange low high (PI / rv)).
  assert (Hnth : forall i, (i < length g)%nat ->
                           nth i g 0 = low + INR i * (PI / rv))
    by (intros i Hi; apply arange_nth; exact Hi).
  assert (Hbelow : forall x, In x g -> x < high).
  { intros x Hx. destruct (In_nth g x 0 Hx) as [i [Hi Hxi]].
    rewrite <- Hxi, Hnth by exact Hi.
    unfold g in Hi. rewrite arange_length in Hi.
    assert (Hi' : INR i <= IZR (Numpy.ceil ((high - low) / (PI / rv))) - 1).
    { rewrite <- INR_to_nat_ceil by exact Hq.
      replace 1 with (INR 1) by reflexivity.
      rewrite <- minus_INR by lia. apply le_INR. lia. }
    destruct (ceil_bounds ((high - low) / (PI / rv))) as [Hlo _].
    assert (Hlt : INR i < (high - low) / (PI / rv)) by lra.
    apply (Rmult_lt_compat_r (PI / rv)) in Hlt; [| exact Hstep].
    replace ((high - low) / (PI / rv) * (PI / rv)) with (high - low) in Hlt
      by (field; lra).
    lra. }
  exists g. split; [apply IV_Ok; lra |].
  split.
  { assert (Hlen : (0 < length g)%nat).
    { unfold g. rewrite arange_length.
      pose proof (ceil_pos _ Hq). lia. }
    destruct g as [| x g'] eqn:Eg; [simpl in Hlen; lia |].
    specialize (Hnth 0%nat Hlen). simpl in Hnth. simpl.
    f_equal. lra. }
  split; [exact Hnth |].
  split.
  { intros i Hi. rewrite (Hnth (S i)) by exact Hi.
    rewrite (Hnth i) by lia. rewrite S_INR. ring. }
  split; [exact Hbelow |].
  intros [x [Hx Hge]]. specialize (Hbelow x Hx). lra.
Qed.

Lemma IV_uniform_grid_witness :
  exists g,
    IV 0 1 1 = Ok g /\
    nth_error g 0 = Some 0 /\
    (forall i, (i < length g)%nat -> nth i g 0 = 0 + INR i * (PI / 1)) /\
    (forall i, (S i < length g)%nat ->
               nth (S i) g 0 - nth i g 0 = PI / 1) /\
    (forall x, In x g -> x < 1) /\
    ~ (exists x, In x g /\ 1 <= x).
Proof. apply (IV_uniform_grid 0 1 1); lra. Defined.

Section Binary64Grid.

Import PrimFloat.

(** C4 at [IV(1, 1.3, 10*np.pi)], in binary64 arithmetic: [low < high] and
    [max_reciprocal > 0], the step is the double [0.1], the quotient
    [(1.3 - 1)/0.1] rounds to [3.0000000000000004] and its ceiling is 4, so
    the grid has 4 samples, [1, 1.1, 1.2000000000000002,
    1.3000000000000003]: the last is above [high = 1.3], and the first two
    samples do not differ by the step.  The doubles are written in
    hexadecimal: [0x1.4cccccccccccdp+0] is [1.3], [0x1.999999999999ap-4] is
    [0.1], [0x1.199999999999ap+0] is [1.1000000000000001],
    [0x1.3333333333334p+0] is [1.2000000000000002] and
    [0x1.4cccccccccccep+0] is [1.3000000000000003]. *)
Theorem IV_float64_overshoots :
  (1 <? 0x1.4cccccccccccdp+0)%float = true /\
  (0 <? 10 * Float64.np_pi)%float = true /\
  ((2 * Float64.np_pi) / (2 * (10 * Float64.np_pi)))%float
  = 0x1.999999999999ap-4%float /\
  Float64.IV 1 0x1.4cccccccccccdp+0 (10 * Float64.np_pi)
  = Ok [1%float; 0x1.199999999999ap+0%float; 0x1.3333333333334p+0%float;
        0x1.4cccccccccccep+0%float] /\
  (0x1.4cccccccccccdp+0 <? 0x1.4cccccccccccep+0)%float = true /\
  (0x1.199999999999ap+0 - 1 =? 0x1.999999999999ap-4)%float = false.
Proof.
  repeat split; vm_compute; reflexivity.
Qed.

End Binary64Grid.






(** ** Unit conversion *)

(** C9. In exact arithmetic the reverse [TimeScaling] undoes the forward
    one: dividing by 658.2119 and then multiplying by it gives [t] back. *)
Theorem TimeScaling_reverse_forward (t : R) :
  TimeScaling t false = t / 658.2119 /\
  (forall u, TimeScaling u true = u * 658.2119) /\
  TimeScaling (TimeScaling t false) true = t.
Proof.
  unfold TimeScaling. simpl.
  split; [reflexivity |]. split; [intros u; reflexivity |]. field. lra.
Qed.

(** ** Partial Huang-Rhys factors *)

Lemma broadcast2_same_length {A B X : Type} (f : A -> B -> X)
      (xs : list A) (ys : list B) :
  length xs = length ys ->
  Numpy.broadcast2 f xs ys
  = Ok (map (fun p => f (fst p) (snd p)) (combine xs ys)).
Proof.
  intros Hlen. unfold Numpy.broadcast2.
  rewrite Hlen, Nat.eqb_refl. reflexivity.
Qed.

Lemma nth_map_combine {A B X : Type} (f : A -> B -> X)
      (xs : list A) (ys : list B) (k : nat) (da : A) (db : B) (dx : X) :
  length xs = length ys -> (k < length xs)%nat ->
  nth k (map (fun p => f (fst p) (snd p)) (combine xs ys)) dx
  = f (nth k xs da) (nth k ys db).
Proof.
  revert ys k. induction xs as [| x xs IH]; intros [| y ys] k Hlen Hk;
    simpl in *; try lia.
  destruct k as [| k]; [reflexivity |].
  apply IH; lia.
Qed.

(** C3. On sequences of equal length [PartialHR] returns one factor per
    mode, [Sk = 2*pi*f_k*qk_k^2 * 0.166 / (2 * 1.05457)]; a mode with
    [qk_k = 0] and a mode with [f_k = 0] both have [Sk = 0]. *)
Theorem PartialHR_formula (freqs qk : list R) :
  length freqs = length qk ->
  exists Sk,
    PartialHR freqs qk = Ok Sk /\
    length Sk = length freqs /\
    forall k, (k < length freqs)%nat ->
      nth k Sk 0
      = 2 * PI * nth k freqs 0 * (nth k qk 0) ^ 2 * 0.166 / (2 * 1.05457) /\
      (nth k qk 0 = 0 -> nth k Sk 0 = 0) /\
      (nth k freqs 0 = 0 -> nth k Sk 0 = 0).
Proof.
  intros Hlen. eexists. split.
  - unfold PartialHR. apply broadcast2_same_length. exact Hlen.
  - split.
    + rewrite length_map, length_combine, <- Hlen. apply Nat.min_id.
    + intros k Hk.
      rewrite (nth_map_combine PartialHR_term freqs qk k 0 0 0 Hlen Hk).
      unfold PartialHR_term. split; [reflexivity |].
      split; intros ->; field; lra.
Qed.

Lemma PartialHR_formula_witness :
  exists Sk,
    PartialHR [0; 1] [1; 0] = Ok Sk /\
    length Sk = length [0; 1] /\
    forall k, (k < length [0; 1])%nat ->
      nth k Sk 0
      = 2 * PI * nth k [0; 1] 0 * (nth k [1; 0] 0) ^ 2 * 0.166
        / (2 * 1.05457) /\
      (nth k [1; 0] 0 = 0 -> nth k Sk 0 = 0) /\
      (nth k [0; 1] 0 = 0 -> nth k Sk 0 = 0).
Proof. apply (PartialHR_formula [0; 1] [1; 0]). reflexivity. Defined.

(** ** Trapezoidal integration *)

Lemma Trapezoidal_ones_uniform :
  Trapezoidal [1; 1; 1] [0; 1; 2] true = Ok (3 / 2).
Proof.
  unfold Trapezoidal. simpl. f_equal. field.
Qed.

Lemma Trapezoidal_ones_local :
  Trapezoidal [1; 1; 1] [0; 1; 2] false = Ok 2.
Proof.
  unfold Trapezoidal. simpl. f_equal. field.
Qed.

(** On a grid of two points there is no interior point and the two branches
    coincide with the trapezoid. *)
Lemma Trapezoidal_two_points (f0 f1 x0 x1 : R) :
  Trapezoidal [f0; f1] [x0; x1] true = Ok ((x1 - x0) / 2 * (f0 + f1)) /\
  Trapezoidal [f0; f1] [x0; x1] false = Ok ((x1 - x0) / 2 * (f0 + f1)).
Proof.
  unfold Trapezoidal. simpl. split; f_equal; field.
Qed.

(** C8 at the constant 1 sampled at the 3 equally spaced points of [0, 2]:
    the uniform-grid branch adds the interior point once, not twice, and
    returns 3/2 where the integral [c * (b - a)] is 2. *)
Theorem Trapezoidal_constant_not_exact :
  Trapezoidal [1; 1; 1] [0; 1; 2] true = Ok (3 / 2) /\
  3 / 2 <> 1 * (2 - 0) /\
  Trapezoidal [1; 1; 1] [0; 1; 2] true
  <> Ok ((1 - 0) / 2 * (2 * 1 + 1 + 1)).
Proof.
  rewrite Trapezoidal_ones_uniform. repeat split.
  - lra.
  - intros H. injection H as H. lra.
Qed.

(** C10 on the same input: the two branches of [Trapezoidal] disagree on a
    uniform grid of 3 points, 3/2 against 2. *)
Theorem Trapezoidal_branches_disagree :
  Trapezoidal [1; 1; 1] [0; 1; 2] true = Ok (3 / 2) /\
  Trapezoidal [1; 1; 1] [0; 1; 2] false = Ok 2 /\
  Trapezoidal [1; 1; 1] [0; 1; 2] true
  <> Trapezoidal [1; 1; 1] [0; 1; 2] false.
Proof.
  rewrite Trapezoidal_ones_uniform, Trapezoidal_ones_local. repeat split.
  intros H. injection H as H. lra.
Qed.

(** ** Luminescence normalization *)

Section DivideByNorm.

Variable norm : C.

Let scaled (w : C) : C := Cdiv w norm.

Lemma sum_scaled (l : list C) :
  Numpy.sum (map scaled l) = Cdiv (Numpy.sum l) norm.
Proof.
  unfold Numpy.sum. induction l as [| a l IH]; cbn [map fold_right].
  - symmetry. apply Cdiv_C0.
  - rewrite IH. symmetry. apply Cdiv_add.
Qed.

Lemma interior_map {A B : Type} (f : A -> B) (l : list A) :
  Numpy.interior (map f l) = map f (Numpy.interior l).
Proof.
  unfold Numpy.interior. destruct l as [| a l]; [reflexivity |]. simpl.
  induction l as [| b l IH]; [reflexivity |].
  simpl. destruct l as [| c l]; [reflexivity |].
  simpl in *. f_equal. exact IH.
Qed.

Lemma last_map {A B : Type} (f : A -> B) (l : list A) (d : A) :
  last (map f l) (f d) = f (last l d).
Proof.
  induction l as [| y l IH]; [reflexivity |].
  destruct l as [| z l]; [reflexivity |].
  change (last (map f (z :: l)) (f d) = f (last (z :: l) d)). exact IH.
Qed.

Lemma getlast_map {A B : Type} (f : A -> B) (l : list A) (a : A) :
  Numpy.getlast l = Ok a -> Numpy.getlast (map f l) = Ok (f a).
Proof.
  destruct l as [| x l]; [discriminate |]. simpl.
  intros H. injection H as <-. f_equal. apply last_map.
Qed.

Lemma getitem_map {A B : Type} (f : A -> B) (l : list A) (i : nat) (a : A) :
  Numpy.getitem l i = Ok a -> Numpy.getitem (map f l) i = Ok (f a).
Proof.
  unfold Numpy.getitem. rewrite nth_error_map.
  destruct (nth_error l i); [| discriminate].
  intros H. injection H as <-. reflexivity.
Qed.

(** The uniform-grid branch is linear in the integrand. *)
Lemma Trapezoidal_scaled (w : list C) (iv : list R) (r : C) :
  Trapezoidal w iv true = Ok r ->
  Trapezoidal (map scaled w) iv true = Ok (Cdiv r norm).
Proof.
  unfold Trapezoidal.
  destruct (Numpy.getitem iv 1) as [iv1 | e]; [| discriminate].
  destruct (Numpy.getitem iv 0) as [iv0 | e]; [| discriminate].
  simpl.
  destruct (Numpy.getitem w 0) as [f0 | e] eqn:E0; [| discriminate].
  destruct (Numpy.getlast w) as [fl | e] eqn:El; [| discriminate].
  simpl. intros H. injection H as <-.
  rewrite (getitem_map scaled w 0 f0 E0), (getlast_map scaled w fl El).
  simpl. rewrite interior_map, sum_scaled. unfold scaled.
  rewrite Cdiv_scale, !Cdiv_add. reflexivity.
Qed.

End DivideByNorm.

Lemma compress_length {A B : Type} (l1 : list A) (l2 : list B)
      (mask : list bool) :
  length l1 = length mask -> length l2 = length mask ->
  length (Numpy.compress l1 mask) = length (Numpy.compress l2 mask).
Proof.
  revert l1 l2. induction mask as [| b mask IH]; intros [| a l1] [| c l2];
    simpl; intros H1 H2; try discriminate; try reflexivity.
  destruct b; simpl; [f_equal |]; apply IH; lia.
Qed.

Lemma bool_index_Ok {A : Type} (l : list A) (mask : list bool) :
  length l = length mask ->
  Numpy.bool_index l mask = Ok (Numpy.compress l mask).
Proof.
  intros Hlen. unfold Numpy.bool_index.
  rewrite Hlen, Nat.eqb_refl. reflexivity.
Qed.

(** A grid of at least 2 points and an integrand of the same length are
    always integrated. *)
Lemma Trapezoidal_defined {T : Type} `{Scalar T}
      (w : list T) (iv : list R) :
  (2 <= length iv)%nat -> length w = length iv ->
  exists r, Trapezoidal w iv true = Ok r.
Proof.
  intros Hiv Hlen.
  destruct iv as [| x0 [| x1 iv]]; simpl in Hiv; try lia.
  destruct w as [| f0 w]; [discriminate |].
  unfold Trapezoidal. simpl. eexists. reflexivity.
Qed.

(** Measured with the program's own uniform-grid branch of [Trapezoidal]:
    when the energy grid and the spectrum have the same length, at least 2
    grid points lie in [[zpl - 500, zpl + 100]] and that branch gives a
    non-zero value on the [E^3]-weighted restricted spectrum,
    [LuminescenceIntensity] returns the restricted grid together with the
    weighted spectrum divided by that value, on which the same branch then
    gives exactly 1.  That branch is not the trapezoidal rule (see
    [Trapezoidal_branches_disagree]), so this is not a unit integral. *)
Lemma LuminescenceIntensity_normalized
        (E_meV : list R) (A_E : list C) (zpl : R) :
  let mask := map (window zpl) E_meV in
  let E_w := Numpy.compress E_meV mask in
  let weighted :=
    map (fun p => Cscale (fst p ^ 3) (snd p))
        (combine E_w (Numpy.compress A_E mask)) in
  length E_meV = length A_E ->
  (2 <= length E_w)%nat ->
  Trapezoidal weighted E_w true <> Ok C0 ->
  exists norm L_E,
    Trapezoidal weighted E_w true = Ok norm /\
    LuminescenceIntensity E_meV A_E zpl = Ok (E_w, L_E) /\
    L_E = map (fun w => Cdiv w norm) weighted /\
    Trapezoidal L_E E_w true = Ok C1.
Proof.
  intros mask E_w weighted Hlen Hwin Hnz.
  assert (HmE : length E_meV = length mask)
    by (unfold mask; rewrite length_map; reflexivity).
  assert (HmA : length A_E = length mask) by congruence.
  assert (Hsame : length E_w = length (Numpy.compress A_E mask))
    by (apply compress_length; assumption).
  assert (Hw : length weighted = length E_w).
  { unfold weighted. rewrite length_map, length_combine, <- Hsame.
    apply Nat.min_id. }
  destruct (Trapezoidal_defined weighted E_w Hwin Hw) as [norm Hnorm].
  assert (Hnorm0 : norm <> C0)
    by (intros ->; apply Hnz; exact Hnorm).
  exists norm, (map (fun w => Cdiv w norm) weighted).
  split; [exact Hnorm |]. split; [| split; [reflexivity |]].
  - unfold LuminescenceIntensity. fold mask.
    rewrite (bool_index_Ok A_E mask HmA), bind_Ok.
    rewrite (bool_index_Ok E_meV mask HmE), bind_Ok. fold E_w.
    rewrite (broadcast2_same_length _ _ _ Hsame), bind_Ok. fold weighted.
    rewrite Hnorm, bind_Ok. reflexivity.
  - rewrite (Trapezoidal_scaled norm weighted E_w norm Hnorm).
    f_equal. apply Cdiv_diag. exact Hnorm0.
Qed.

Lemma Rleb_true (x y : R) : x <= y -> Rleb x y = true.
Proof. intros H. unfold Rleb. destruct (Rle_dec x y); [reflexivity | contradiction]. Qed.

Lemma Rleb_false (x y : R) : y < x -> Rleb x y = false.
Proof. intros H. unfold Rleb. destruct (Rle_dec x y); [lra | reflexivity]. Qed.

Lemma window_inside (zpl e : R) :
  zpl - 500 <= e <= zpl + 100 -> window zpl e = true.
Proof.
  intros [Hlo Hhi]. unfold window.
  rewrite (Rleb_true _ _ Hlo), (Rleb_true _ _ Hhi). reflexivity.
Qed.

Lemma LuminescenceIntensity_normalized_witness :
  let E_w := Numpy.compress [0; 1] (map (window 0) [0; 1]) in
  let weighted :=
    map (fun p => Cscale (fst p ^ 3) (snd p))
        (combine E_w (Numpy.compress [C1; C1] (map (window 0) [0; 1]))) in
  exists norm L_E,
    Trapezoidal weighted E_w true = Ok norm /\
    LuminescenceIntensity [0; 1] [C1; C1] 0 = Ok (E_w, L_E) /\
    L_E = map (fun w => Cdiv w norm) weighted /\
    Trapezoidal L_E E_w true = Ok C1.
Proof.
  assert (Hmask : map (window 0) [0; 1] = [true; true]).
  { simpl. rewrite !window_inside by lra. reflexivity. }
  apply (LuminescenceIntensity_normalized [0; 1] [C1; C1] 0).
  - reflexivity.
  - rewrite Hmask. simpl. lia.
  - rewrite Hmask. unfold Trapezoidal. simpl.
    intros H. injection H as Hre _. lra.
Defined.

(** C2 at the energies [[-501, 0, 1, 2, 101]] with [A_E = [1, 1, 1, 1, 1]]
    and [zpl = 0]: the window [[-500, 100]] keeps the energies [[0, 1, 2]],
    the weighted curve is [[0, 1, 8]], the uniform-grid branch of
    [Trapezoidal] gives 9/2 where the trapezoidal rule gives 5, and the
    returned lineshape [[0, 2/9, 16/9]] has the trapezoidal integral 10/9,
    not 1: by the per-interval branch, and by the closed rule
    [h/2 * (first + 2 * interior + last)]. *)
Theorem LuminescenceIntensity_not_unit_integral :
  exists L0 L1 L2,
    LuminescenceIntensity [-501; 0; 1; 2; 101] [C1; C1; C1; C1; C1] 0
    = Ok ([0; 1; 2], [L0; L1; L2]) /\
    [L0; L1; L2] = [C0; RtoC (2 / 9); RtoC (16 / 9)] /\
    Trapezoidal [C0; C1; RtoC 8] [0; 1; 2] true = Ok (RtoC (9 / 2)) /\
    Trapezoidal [C0; C1; RtoC 8] [0; 1; 2] false = Ok (RtoC 5) /\
    Trapezoidal [L0; L1; L2] [0; 1; 2] false = Ok (RtoC (10 / 9)) /\
    Cscale ((1 - 0) / 2) (Cadd (Cadd L0 (Cscale 2 L1)) L2) = RtoC (10 / 9) /\
    RtoC (10 / 9) <> C1.
Proof.
  assert (Hmask : map (window 0) [-501; 0; 1; 2; 101]
                  = [false; true; true; true; false]).
  { cbn [map].
    rewrite (window_inside 0 0), (window_inside 0 1), (window_inside 0 2)
      by lra.
    unfold window.
    rewrite (Rleb_false (0 - 500) (-501)) by lra.
    rewrite (Rleb_true (0 - 500) 101), (Rleb_false 101 (0 + 100)) by lra.
    reflexivity. }
  assert (HL : LuminescenceIntensity [-501; 0; 1; 2; 101]
                 [C1; C1; C1; C1; C1] 0
               = Ok ([0; 1; 2], [C0; RtoC (2 / 9); RtoC (16 / 9)])).
  { unfold LuminescenceIntensity. rewrite Hmask.
    unfold Numpy.bool_index, Numpy.broadcast2, Trapezoidal.
    cbn [length Nat.eqb Numpy.compress map combine fst snd bind
         Numpy.getitem nth_error Numpy.getlast last Numpy.interior tl
         removelast Numpy.sum fold_right].
    do 2 f_equal.
    f_equal; [| f_equal; [| f_equal]];
      apply C_eq; unfold Cdiv, Cinv, Cnorm2; simpl; field. }
  exists C0, (RtoC (2 / 9)), (RtoC (16 / 9)).
  split; [exact HL |]. split; [reflexivity |].
  split.
  { unfold Trapezoidal. simpl. f_equal. apply C_eq; simpl; field. }
  split.
  { unfold Trapezoidal. simpl. f_equal. apply C_eq; simpl; field. }
  split.
  { unfold Trapezoidal. simpl. f_equal. apply C_eq; simpl; field. }
  split.
  { apply C_eq; simpl; field. }
  intros H. injection H as H. lra.
Qed.

(** ** Configuration coordinates *)

Lemma mapM_ext_in {A B : Type} (f g : A -> result B) (l : list A) :
  (forall x, In x l -> f x = g x) -> mapM f l = mapM g l.
Proof.
  induction l as [| a l IH]; intros H; [reflexivity |].
  cbn [mapM]. rewrite (H a) by (left; reflexivity).
  rewrite IH by (intros x Hx; apply H; right; exact Hx). reflexivity.
Qed.

Lemma mapM_total {A B : Type} (f : A -> result B) (l : list A) :
  (forall x, In x l -> exists b, f x = Ok b) ->
  exists bs, mapM f l = Ok bs /\ length bs = length l.
Proof.
  induction l as [| a l IH]; intros H.
  - exists []. split; reflexivity.
  - destruct (H a (or_introl eq_refl)) as [b Hb].
    destruct IH as [bs [Hbs Hlen]];
      [intros x Hx; apply H; right; exact Hx |].
    exists (b :: bs). cbn [mapM]. rewrite Hb, bind_Ok, Hbs, bind_Ok.
    split; [reflexivity | simpl; f_equal; exact Hlen].
Qed.

Lemma mapM_raises {A B : Type} (f : A -> result B)
      (l1 : list A) (x : A) (l2 : list A) (e : exn) :
  (forall y, In y l1 -> exists b, f y = Ok b) -> f x = Raise e ->
  mapM f (l1 ++ x :: l2) = Raise e.
Proof.
  induction l1 as [| a l1 IH]; intros H Hx.
  - cbn [app mapM]. rewrite Hx. reflexivity.
  - destruct (H a (or_introl eq_refl)) as [b Hb].
    cbn [app mapM]. rewrite Hb, bind_Ok.
    rewrite IH; [reflexivity | intros y Hy; apply H; right; exact Hy | exact Hx].
Qed.

Lemma getitem_Ok {A : Type} (l : list A) (i : nat) :
  (i < length l)%nat -> exists a, Numpy.getitem l i = Ok a.
Proof.
  intros Hi. unfold Numpy.getitem.
  destruct (nth_error l i) as [a |] eqn:E; [exists a; reflexivity |].
  apply nth_error_None in E. lia.
Qed.

Lemma getitem_Raise {A : Type} (l : list A) (i : nat) :
  (length l <= i)%nat -> Numpy.getitem l i = Raise IndexError.
Proof.
  intros Hi. unfold Numpy.getitem.
  apply nth_error_None in Hi. rewrite Hi. reflexivity.
Qed.

Lemma broadcast2_Raise {A B X : Type} (f : A -> B -> X)
      (xs : list A) (ys : list B) :
  length xs <> length ys -> length xs <> 1%nat -> length ys <> 1%nat ->
  Numpy.broadcast2 f xs ys = Raise ValueError.
Proof.
  intros Hne Hx Hy. unfold Numpy.broadcast2.
  destruct (Nat.eqb_spec (length xs) (length ys)) as [Heq | _];
    [contradiction |].
  destruct xs as [| x [| x' xs]]; destruct ys as [| y [| y' ys]];
    simpl in *; try lia; reflexivity.
Qed.

Lemma broadcast2_Ok {A B X : Type} (f : A -> B -> X)
      (xs : list A) (ys : list B) :
  length xs = length ys \/ length xs = 1%nat \/ length ys = 1%nat ->
  exists r, Numpy.broadcast2 f xs ys = Ok r.
Proof.
  intros H. unfold Numpy.broadcast2.
  destruct (Nat.eqb_spec (length xs) (length ys)) as [Heq | Hne];
    [eexists; reflexivity |].
  destruct xs as [| x [| x' xs]]; destruct ys as [| y [| y' ys]];
    simpl in *; try (eexists; reflexivity); lia.
Qed.

Lemma mass_weighted_Ok (masses : list R) (R_diff : list vec3) :
  (length masses <= length R_diff)%nat ->
  exists mR, mass_weighted masses R_diff = Ok mR /\
             length mR = length masses.
Proof.
  intros Hle. unfold mass_weighted.
  destruct (mapM_total
              (fun i => m <- Numpy.getitem masses i ;;
                        r <- Numpy.getitem R_diff i ;; Ok (vscale m r))
              (seq 0 (length masses))) as [mR [HmR Hlen]].
  - intros i Hi. apply in_seq in Hi.
    destruct (getitem_Ok masses i) as [m Hm]; [lia |].
    destruct (getitem_Ok R_diff i) as [r Hr]; [lia |].
    rewrite Hm, bind_Ok, Hr, bind_Ok. eexists; reflexivity.
  - exists mR. split; [exact HmR |]. rewrite Hlen. apply length_seq.
Qed.

Lemma mass_weighted_Raise (masses : list R) (R_diff : list vec3) :
  (length R_diff < length masses)%nat ->
  mass_weighted masses R_diff = Raise IndexError.
Proof.
  intros Hlt. unfold mass_weighted.
  set (n := length R_diff) in *.
  replace (length masses) with (n + S (length masses - S n))%nat by lia.
  rewrite seq_app. cbn [seq]. apply mapM_raises.
  - intros i Hi. apply in_seq in Hi.
    destruct (getitem_Ok masses i) as [m Hm]; [lia |].
    destruct (getitem_Ok R_diff i) as [r Hr]; [fold n; lia |].
    rewrite Hm, bind_Ok, Hr, bind_Ok. eexists; reflexivity.
  - destruct (getitem_Ok masses (0 + n)) as [m Hm]; [lia |].
    rewrite Hm, bind_Ok.
    rewrite (getitem_Raise R_diff (0 + n)) by (fold n; lia). reflexivity.
Qed.

Lemma mass_weighted_firstn (masses : list R) (R_diff : list vec3) :
  mass_weighted masses (firstn (length masses) R_diff)
  = mass_weighted masses R_diff.
Proof.
  unfold mass_weighted. apply mapM_ext_in. intros i Hi.
  apply in_seq in Hi. unfold Numpy.getitem at 2 4.
  rewrite nth_error_firstn.
  destruct (Nat.ltb_spec i (length masses)) as [_ | Hge]; [reflexivity | lia].
Qed.

Lemma project_Raise (mR : list vec3) (modes : list (list vec3)) (a : nat) :
  modes <> [] -> Forall (fun m => length m = a) modes ->
  length mR = 0%nat \/
  (length mR <> a /\ length mR <> 1%nat /\ a <> 1%nat) ->
  project mR modes = Raise ValueError.
Proof.
  intros Hne Hall Hshape.
  destruct modes as [| mode modes]; [contradiction |].
  inversion Hall as [| ? ? Hmode _]; subst.
  unfold project. cbn [mapM]. unfold mul_rows.
  destruct mR as [| r mR]; [reflexivity |].
  destruct Hshape as [H0 | [H1 [H2 H3]]]; [discriminate |].
  rewrite broadcast2_Raise by assumption. reflexivity.
Qed.

Lemma project_Ok (mR : list vec3) (modes : list (list vec3)) (a : nat) :
  Forall (fun m => length m = a) modes ->
  (1 <= length mR)%nat ->
  length mR = a \/ length mR = 1%nat \/ a = 1%nat ->
  exists qk, project mR modes = Ok qk /\ length qk = length modes.
Proof.
  intros Hall Hpos Hshape. unfold project. apply mapM_total.
  intros mode Hin. rewrite Forall_forall in Hall.
  specialize (Hall mode Hin). unfold mul_rows.
  destruct mR as [| r mR]; [simpl in Hpos; lia |].
  destruct (broadcast2_Ok vmul (r :: mR) mode) as [p Hp];
    [rewrite Hall; exact Hshape |].
  rewrite Hp, bind_Ok. eexists; reflexivity.
Qed.

Lemma displacement_rows (R_es R_gs : list vec3) :
  length R_es = length R_gs ->
  exists R_diff,
    Numpy.broadcast2 vsub R_es R_gs = Ok R_diff /\
    length R_diff = length R_es /\
    forall k, Numpy.broadcast2 vsub (firstn k R_es) (firstn k R_gs)
              = Ok (firstn k R_diff).
Proof.
  intros Hlen. eexists. split; [apply broadcast2_same_length; exact Hlen |].
  split.
  - rewrite length_map, length_combine, <- Hlen. apply Nat.min_id.
  - intros k. rewrite broadcast2_same_length
      by (rewrite !length_firstn, Hlen; reflexivity).
    rewrite firstn_map, combine_firstn. reflexivity.
Qed.

(** C6, as stated, fails.  With one mass and a displacement of two rows
    [ConfigCoordinates] returns a value computed from the first row alone;
    with one mass and two atoms per mode it returns a value computed with the
    single mass-weighted row stretched over both atoms. *)
Lemma ConfigCoordinates_mismatch_not_rejected :
  (length [1] <> length [(1, 0, 0); (5, 5, 5)] /\
   ConfigCoordinates [1] [(1, 0, 0); (5, 5, 5)] [(0, 0, 0); (0, 0, 0)]
                     [[(1, 0, 0)]] = Ok [1]) /\
  (length [1] <> length [(1, 0, 0); (1, 0, 0)] /\
   ConfigCoordinates [1] [(1, 0, 0)] [(0, 0, 0)]
                     [[(1, 0, 0); (1, 0, 0)]] = Ok [2]).
Proof.
  split; (split; [simpl; lia |]).
  - unfold ConfigCoordinates, mass_weighted, project. simpl.
    rewrite sqrt_1. do 2 f_equal. ring.
  - unfold ConfigCoordinates, mass_weighted, project. simpl.
    rewrite sqrt_1. do 2 f_equal. ring.
Qed.

(** C6, amended.  For a displacement of [n] rows (ground and excited
    geometries of the same length), [k] masses and at least one mode of [a]
    atoms each: [ConfigCoordinates] fails with an index error when [k > n],
    and with a shape-mismatch error when [k <= n] and either [k = 0] or [k]
    differs from [a] with neither equal to 1.  In every other case it returns
    one value per mode: masses shorter than the displacement are accepted
    (the result is the one computed from the first [k] rows of both
    geometries), and a single mass or a single atom per mode is broadcast. *)
Theorem ConfigCoordinates_shapes
        (masses : list R) (R_es R_gs : list vec3)
        (modes : list (list vec3)) (a : nat) :
  length R_es = length R_gs ->
  modes <> [] ->
  Forall (fun m => length m = a) modes ->
  let k := length masses in
  let n := length R_es in
  ((n < k)%nat ->
   ConfigCoordinates masses R_es R_gs modes = Raise IndexError) /\
  ((k <= n)%nat ->
   k = 0%nat \/ (k <> a /\ k <> 1%nat /\ a <> 1%nat) ->
   ConfigCoordinates masses R_es R_gs modes = Raise ValueError) /\
  ((1 <= k <= n)%nat ->
   k = a \/ k = 1%nat \/ a = 1%nat ->
   exists qk,
     ConfigCoordinates masses R_es R_gs modes = Ok qk /\
     length qk = length modes /\
     ConfigCoordinates masses (firstn k R_es) (firstn k R_gs) modes = Ok qk).
Proof.
  intros Hrows Hmodes Hall k n.
  destruct (displacement_rows R_es R_gs Hrows) as [R_diff [Hd [Hdlen Hdk]]].
  assert (Hk : length (map sqrt masses) = k) by apply length_map.
  unfold ConfigCoordinates. rewrite Hd, bind_Ok.
  split; [| split].
  - intros Hlt. rewrite mass_weighted_Raise; [reflexivity |].
    rewrite Hk, Hdlen. exact Hlt.
  - intros Hle Hshape.
    destruct (mass_weighted_Ok (map sqrt masses) R_diff) as [mR [HmR HmRlen]];
      [rewrite Hk, Hdlen; exact Hle |].
    rewrite HmR, bind_Ok. apply (project_Raise mR modes a Hmodes Hall).
    rewrite HmRlen, Hk. exact Hshape.
  - intros [Hpos Hle] Hshape.
    destruct (mass_weighted_Ok (map sqrt masses) R_diff) as [mR [HmR HmRlen]];
      [rewrite Hk, Hdlen; exact Hle |].
    rewrite HmR, bind_Ok.
    destruct (project_Ok mR modes a Hall) as [qk [Hqk Hqklen]];
      [rewrite HmRlen, Hk; exact Hpos | rewrite HmRlen, Hk; exact Hshape |].
    exists qk. split; [exact Hqk |]. split; [exact Hqklen |].
    rewrite (Hdk k), bind_Ok. rewrite <- Hk at 1.
    rewrite mass_weighted_firstn, HmR, bind_Ok. exact Hqk.
Qed.

Lemma ConfigCoordinates_shapes_witness :
  ConfigCoordinates [1; 1] [(1, 0, 0)] [(0, 0, 0)] [[(1, 0, 0)]]
  = Raise IndexError /\
  ConfigCoordinates [1; 1] [(1, 0, 0); (0, 1, 0); (0, 0, 1)]
                    [(0, 0, 0); (0, 0, 0); (0, 0, 0)]
                    [[(1, 0, 0); (0, 1, 0); (0, 0, 1)]]
  = Raise ValueError /\
  exists qk,
    ConfigCoordinates [1] [(1, 0, 0); (5, 5, 5)] [(0, 0, 0); (0, 0, 0)]
                      [[(1, 0, 0)]] = Ok qk /\
    length qk = 1%nat /\
    ConfigCoordinates [1] (firstn 1 [(1, 0, 0); (5, 5, 5)])
                      (firstn 1 [(0, 0, 0); (0, 0, 0)])
                      [[(1, 0, 0)]] = Ok qk.
Proof.
  split; [| split].
  - apply (proj1 (ConfigCoordinates_shapes
                    [1; 1] [(1, 0, 0)] [(0, 0, 0)] [[(1, 0, 0)]] 1
                    eq_refl ltac:(discriminate)
                    ltac:(repeat constructor))).
    simpl. lia.
  - apply (proj1 (proj2 (ConfigCoordinates_shapes
                    [1; 1] [(1, 0, 0); (0, 1, 0); (0, 0, 1)]
                    [(0, 0, 0); (0, 0, 0); (0, 0, 0)]
                    [[(1, 0, 0); (0, 1, 0); (0, 0, 1)]] 3
                    eq_refl ltac:(discriminate)
                    ltac:(repeat constructor)))).
    + simpl. lia.
    + right. simpl. lia.
  - apply (proj2 (proj2 (ConfigCoordinates_shapes
                    [1] [(1, 0, 0); (5, 5, 5)] [(0, 0, 0); (0, 0, 0)]
                    [[(1, 0, 0)]] 1
                    eq_refl ltac:(discriminate)
                    ltac:(repeat constructor)))).
    + simpl. lia.
    + left. reflexivity.
Defined.

(** ** Truncation of the phonon modes *)

(** C7. With [n] loaded modes, the Huang-Rhys stage of [CalculateSpectrum]
    hands [FreqToEnergy], [ConfigCoordinates] and [PartialHR] the first
    [n / 2] frequencies and the first [n / 2] eigenvector blocks, and the
    whole mass sequence; the entries past the midpoint have no influence on
    the result. *)
Theorem CalculateSpectrum_first_half
        (masses : list R) (R_es R_gs : list vec3)
        (freqs : list R) (modes : list (list vec3)) (n : nat) :
  length freqs = n -> length modes = n ->
  let freqs_kept := firstn (n / 2) freqs in
  let modes_kept := firstn (n / 2) modes in
  length freqs_kept = (n / 2)%nat /\
  length modes_kept = (n / 2)%nat /\
  CalculateSpectrum_HuangRhys masses R_es R_gs freqs modes
  = (qk <- ConfigCoordinates masses R_es R_gs modes_kept ;;
     Sk <- PartialHR freqs_kept qk ;;
     Ok (FreqToEnergy freqs_kept, qk, Sk)) /\
  (forall freqs' modes',
      length freqs' = n -> length modes' = n ->
      firstn (n / 2) freqs' = freqs_kept ->
      firstn (n / 2) modes' = modes_kept ->
      CalculateSpectrum_HuangRhys masses R_es R_gs freqs' modes'
      = CalculateSpectrum_HuangRhys masses R_es R_gs freqs modes).
Proof.
  intros Hf Hm freqs_kept modes_kept.
  assert (Hhalf : (n / 2 <= n)%nat)
    by (apply Nat.Div0.div_le_upper_bound; lia).
  split; [unfold freqs_kept; apply firstn_length_le; lia |].
  split; [unfold modes_kept; apply firstn_length_le; lia |].
  split.
  - unfold CalculateSpectrum_HuangRhys. rewrite Hf, Hm. reflexivity.
  - intros freqs' modes' Hf' Hm' Hfk Hmk.
    unfold CalculateSpectrum_HuangRhys.
    rewrite Hf, Hm, Hf', Hm', Hfk, Hmk. reflexivity.
Qed.

Lemma CalculateSpectrum_first_half_witness :
  let freqs_kept := firstn (2 / 2) [1; 7] in
  let modes_kept := firstn (2 / 2) [[(1, 0, 0)]; [(0, 1, 0)]] in
  length freqs_kept = (2 / 2)%nat /\
  length modes_kept = (2 / 2)%nat /\
  CalculateSpectrum_HuangRhys [1] [(1, 0, 0)] [(0, 0, 0)] [1; 7]
                              [[(1, 0, 0)]; [(0, 1, 0)]]
  = (qk <- ConfigCoordinates [1] [(1, 0, 0)] [(0, 0, 0)] modes_kept ;;
     Sk <- PartialHR freqs_kept qk ;;
     Ok (FreqToEnergy freqs_kept, qk, Sk)) /\
  (forall freqs' modes',
      length freqs' = 2%nat -> length modes' = 2%nat ->
      firstn (2 / 2) freqs' = freqs_kept ->
      firstn (2 / 2) modes' = modes_kept ->
      CalculateSpectrum_HuangRhys [1] [(1, 0, 0)] [(0, 0, 0)] freqs' modes'
      = CalculateSpectrum_HuangRhys [1] [(1, 0, 0)] [(0, 0, 0)] [1; 7]
                                    [[(1, 0, 0)]; [(0, 1, 0)]]).
Proof.
  apply (CalculateSpectrum_first_half
           [1] [(1, 0, 0)] [(0, 0, 0)] [1; 7]
           [[(1, 0, 0)]; [(0, 1, 0)]] 2);
    reflexivity.
Defined.

(** ** The Fourier pair on a grid of two points *)

Lemma Cexp_zero (z : C) : Re z = 0 -> Im z = 0 -> Cexp z = C1.
Proof.
  intros Hre Him. unfold Cexp. rewrite Hre, Him, exp_0, cos_0, sin_0.
  apply C_eq; simpl; ring.
Qed.

Lemma twiddle_first (s : R) (n k : nat) : FFT.twiddle s n 0 k = C1.
Proof.
  unfold FFT.twiddle. apply Cexp_zero; simpl; [reflexivity |].
  unfold Rdiv. ring.
Qed.

Lemma twiddle_zero_frequency (s : R) (n j : nat) : FFT.twiddle s n j 0 = C1.
Proof.
  unfold FFT.twiddle. apply Cexp_zero; simpl; [reflexivity |].
  unfold Rdiv. ring.
Qed.

Lemma twiddle_half (s : R) :
  s = 1 \/ s = -1 -> FFT.twiddle s 2 1 1 = RtoC (-1).
Proof.
  intros Hs. unfold FFT.twiddle, Cexp. cbn [Re Im]. rewrite exp_0.
  destruct Hs as [-> | ->].
  - replace (1 * (2 * PI * INR 1 * INR 1 / INR 2)) with PI
      by (simpl; field).
    rewrite cos_PI, sin_PI. apply C_eq; simpl; ring.
  - replace (-1 * (2 * PI * INR 1 * INR 1 / INR 2)) with (- PI)
      by (simpl; field).
    rewrite cos_neg, sin_neg, cos_PI, sin_PI. apply C_eq; simpl; ring.
Qed.

Lemma dft_sum_two (s : R) (a b : C) :
  s = 1 \/ s = -1 ->
  FFT.dft_sum s [a; b] 0 = Cadd a b /\
  FFT.dft_sum s [a; b] 1 = Cadd a (Copp b).
Proof.
  intros Hs. unfold FFT.dft_sum, Numpy.sum.
  cbn [length seq combine map fst snd fold_right].
  rewrite !twiddle_zero_frequency, twiddle_first, (twiddle_half s Hs).
  split; apply C_eq; simpl; ring.
Qed.

Lemma fft_two (a b : C) :
  FFT.np_fft [a; b] = Ok [Cadd a b; Cadd a (Copp b)].
Proof.
  unfold FFT.np_fft, FFT.checked, FFT.fft. cbn [length seq map].
  destruct (dft_sum_two (-1) a b) as [-> ->]; [right |]; reflexivity.
Qed.

Lemma ifft_two (a b : C) :
  FFT.np_ifft [a; b]
  = Ok [Cscale (1 / 2) (Cadd a b); Cscale (1 / 2) (Cadd a (Copp b))].
Proof.
  unfold FFT.np_ifft, FFT.checked, FFT.ifft. cbn [length seq map].
  destruct (dft_sum_two 1 a b) as [-> ->]; [left; reflexivity |].
  replace (INR 2) with 2 by (simpl; ring). reflexivity.
Qed.

Lemma reciprocal_grid_two (d : R) :
  0 < d -> map (fun x => 2 * PI * x) (FFT.fftfreq 2 d) = [0; - PI / d].
Proof.
  intros Hd. unfold FFT.fftfreq, FFT.fftfreq_int. simpl.
  f_equal; [| f_equal]; field; lra.
Qed.

Lemma argsort_descending_pair (a b : R) : b < a -> argsort [a; b] = [1; 0]%nat.
Proof.
  intros Hlt. unfold argsort. simpl.
  rewrite (Rleb_false a b Hlt). reflexivity.
Qed.

(** Both transforms on a grid of two points [x0 < x1]: the reciprocal grid
    is [-pi/(x1 - x0), 0], and the two transformed values are swapped by the
    sort. *)
Lemma transform_on_two_points (tr : list C -> result (list C))
      (s x0 x1 : R) (f : list C) (y0 y1 : C) :
  x0 < x1 -> tr f = Ok [y0; y1] ->
  transform_on_grid tr s [x0; x1] f
  = Ok ([- PI / (x1 - x0); 0],
        [Cmul (Cscale (x1 - x0) y1)
              (Cexp (Cscale x0 (Cscale (- PI / (x1 - x0)) (Cscale s Ci))));
         Cmul (Cscale (x1 - x0) y0)
              (Cexp (Cscale x0 (Cscale 0 (Cscale s Ci))))]).
Proof.
  intros Hlt Htr. pose proof PI_RGT_0 as HPI.
  unfold transform_on_grid.
  change (length [x0; x1]) with 2%nat.
  change (Numpy.getitem [x0; x1] 1) with (Ok x1).
  change (Numpy.getitem [x0; x1] 0) with (Ok x0).
  rewrite !bind_Ok, Htr.
  rewrite (reciprocal_grid_two (x1 - x0)) by lra.
  rewrite argsort_descending_pair.
  - reflexivity.
  - assert (0 < PI / (x1 - x0)) by (apply Rdiv_lt_0_compat; lra).
    unfold Rdiv in *. lra.
Qed.

Lemma Fourier_unit_impulse :
  Fourier [0; 1] [C1; C0] = Ok ([- PI; 0], [C1; C1]).
Proof.
  unfold Fourier.
  rewrite (transform_on_two_points FFT.np_fft (-1) 0 1 [C1; C0] _ _
             ltac:(lra) (fft_two C1 C0)).
  f_equal. f_equal.
  - f_equal. field.
  - rewrite !Cexp_zero by (simpl; ring).
    f_equal; [| f_equal]; apply C_eq; simpl; ring.
Qed.

Lemma InverseFourier_of_transform :
  InverseFourier [- PI; 0] [C1; C1] = Ok ([-1; 0], [C0; RtoC PI]).
Proof.
  pose proof PI_RGT_0 as HPI. unfold InverseFourier.
  rewrite (transform_on_two_points FFT.np_ifft 1 (- PI) 0 [C1; C1] _ _
             ltac:(lra) (ifft_two C1 C1)).
  f_equal. f_equal.
  - f_equal. field. lra.
  - rewrite (Cexp_zero (Cscale (- PI) (Cscale 0 (Cscale 1 Ci))))
      by (simpl; ring).
    f_equal; [| f_equal]; apply C_eq; simpl; try ring; field.
Qed.

(** C1 at the unit impulse [f = [1, 0]] on the grid [iv = [0, 1]]:
    [Fourier] returns the dual grid [[-pi, 0]] with values [[1, 1]], and
    [InverseFourier] on that grid returns [[0, pi]], not [f]. *)
Theorem Fourier_round_trip_differs :
  exists rv F rv' f',
    Fourier [0; 1] [C1; C0] = Ok (rv, F) /\
    InverseFourier rv F = Ok (rv', f') /\
    f' = [C0; RtoC PI] /\
    f' <> [C1; C0].
Proof.
  exists [- PI; 0], [C1; C1], [-1; 0], [C0; RtoC PI].
  split; [exact Fourier_unit_impulse |].
  split; [exact InverseFourier_of_transform |].
  split; [reflexivity |].
  intros H. injection H as H _. lra.
Qed.

(** * Further properties of the code *)

(** ** [Trapezoidal] *)

(** X1. A grid of fewer than 2 points makes [Trapezoidal] raise an index
    error, whatever the integrand and the branch. *)
Theorem Trapezoidal_short_grid {T : Type} `{Scalar T}
        (integrand : list T) (iv : list R) (equally_spaced : bool) :
  (length iv < 2)%nat ->
  Trapezoidal integrand iv equally_spaced = Raise IndexError.
Proof.
  intros Hlen. destruct iv as [| x0 [| x1 iv]]; simpl in Hlen; try lia;
    reflexivity.
Qed.

Lemma Trapezoidal_short_grid_witness :
  Trapezoidal [1; 2; 3] [0] false = Raise IndexError.
Proof. apply (Trapezoidal_short_grid [1; 2; 3] [0] false). simpl. lia. Defined.

Lemma sum_removelast_last (l : list R) (d : R) :
  l <> [] -> Numpy.sum (removelast l) + last l d = Numpy.sum l.
Proof.
  unfold Numpy.sum. cbn [sadd szero Scalar_R].
  induction l as [| a l IH]; intros Hne; [contradiction |].
  destruct l as [| b l].
  - simpl. ring.
  - change (a + fold_right Rplus 0 (removelast (b :: l)) + last (b :: l) d
            = a + fold_right Rplus 0 (b :: l)).
    rewrite <- IH by discriminate. ring.
Qed.

Lemma last_default_irrelevant {A : Type} (l : list A) (d d' : A) :
  l <> [] -> last l d = last l d'.
Proof.
  induction l as [| a l IH]; intros Hne; [contradiction |].
  destruct l as [| b l]; [reflexivity |].
  change (last (b :: l) d = last (b :: l) d'). apply IH. discriminate.
Qed.

Lemma uniform_branch_cons (f0 f1 : R) (fs : list R) (x0 x1 : R)
      (iv : list R) :
  Trapezoidal (f0 :: f1 :: fs) (x0 :: x1 :: iv) true
  = Ok ((x1 - x0) / 2 * Numpy.sum (f0 :: f1 :: fs)).
Proof.
  unfold Trapezoidal.
  change (Numpy.getitem (x0 :: x1 :: iv) 1) with (Ok x1).
  change (Numpy.getitem (x0 :: x1 :: iv) 0) with (Ok x0).
  change (Numpy.getitem (f0 :: f1 :: fs) 0) with (Ok f0).
  change (Numpy.getlast (f0 :: f1 :: fs)) with (Ok (last (f1 :: fs) f0)).
  change (Numpy.interior (f0 :: f1 :: fs)) with (removelast (f1 :: fs)).
  rewrite !bind_Ok. f_equal.
  pose proof (sum_removelast_last (f1 :: fs) f0 ltac:(discriminate)) as Hs.
  change (Numpy.sum (f0 :: f1 :: fs)) with (f0 + Numpy.sum (f1 :: fs)).
  rewrite <- Hs.
  change ((x1 - x0) / 2
          * (Numpy.sum (removelast (f1 :: fs)) + f0 + last (f1 :: fs) f0)
          = (x1 - x0) / 2
            * (f0 + (Numpy.sum (removelast (f1 :: fs)) + last (f1 :: fs) f0))).
  ring.
Qed.

(** X2. On an integrand of at least 2 values the uniform-grid branch
    returns half the first grid step times the plain sum of all the values;
    it reads nothing of the grid beyond its first two points and does not
    compare the two lengths. *)
Theorem Trapezoidal_uniform_is_half_step_sum (integrand iv : list R) :
  (2 <= length integrand)%nat -> (2 <= length iv)%nat ->
  Trapezoidal integrand iv true
  = Ok ((nth 1 iv 0 - nth 0 iv 0) / 2 * Numpy.sum integrand).
Proof.
  intros Hf Hiv.
  destruct iv as [| x0 [| x1 iv]]; simpl in Hiv; try lia.
  destruct integrand as [| f0 [| f1 fs]]; simpl in Hf; try lia.
  cbn [nth]. apply uniform_branch_cons.
Qed.

Lemma Trapezoidal_uniform_is_half_step_sum_witness :
  Trapezoidal [1; 1; 1] [0; 1; 2] true
  = Ok ((nth 1 [0; 1; 2] 0 - nth 0 [0; 1; 2] 0) / 2 * Numpy.sum [1; 1; 1]).
Proof.
  apply (Trapezoidal_uniform_is_half_step_sum [1; 1; 1] [0; 1; 2]);
    simpl; lia.
Defined.

Lemma sum_repeat (c : R) (n : nat) : Numpy.sum (repeat c n) = INR n * c.
Proof.
  unfold Numpy.sum. cbn [sadd szero Scalar_R].
  induction n as [| n IH]; [simpl; ring |].
  cbn [repeat fold_right]. rewrite IH, S_INR. ring.
Qed.

(** X3. For the constant [c] at [N >= 2] points [a, a + h, ...,
    b = a + (N - 1) h], the uniform-grid branch returns
    [c * (b - a) * N / (2 * (N - 1))]: the exact integral [c * (b - a)]
    times [N / (2 (N - 1))]. *)
Theorem Trapezoidal_uniform_constant (c a h : R) (N : nat) :
  (2 <= N)%nat ->
  let iv := map (fun i => a + INR i * h) (seq 0 N) in
  let b := a + (INR N - 1) * h in
  Trapezoidal (repeat c N) iv true
  = Ok (c * (b - a) * INR N / (2 * (INR N - 1))).
Proof.
  intros HN iv b.
  destruct N as [| [| N]]; try lia.
  unfold iv, b. cbn [seq map repeat].
  rewrite uniform_branch_cons.
  f_equal. change (c :: c :: repeat c N) with (repeat c (S (S N))).
  rewrite sum_repeat, !S_INR.
  pose proof (pos_INR N) as HNpos. simpl INR. field. lra.
Qed.

Lemma Trapezoidal_uniform_constant_witness :
  Trapezoidal (repeat 1 3) (map (fun i => 0 + INR i * 1) (seq 0 3)) true
  = Ok (1 * ((0 + (INR 3 - 1) * 1) - 0) * INR 3 / (2 * (INR 3 - 1))).
Proof. apply (Trapezoidal_uniform_constant 1 0 1 3). lia. Defined.

Lemma mapM_map {A B X : Type} (g : A -> B) (f : B -> result X) (l : list A) :
  mapM f (map g l) = mapM (fun a => f (g a)) l.
Proof.
  induction l as [| a l IH]; [reflexivity |].
  cbn [map mapM]. rewrite IH. reflexivity.
Qed.

Lemma local_branch_terms (iv integrand : list R) :
  (length iv <= length integrand)%nat ->
  mapM (fun i =>
          x1 <- Numpy.getitem iv (i + 1) ;;
          x0 <- Numpy.getitem iv i ;;
          f1 <- Numpy.getitem integrand (i + 1) ;;
          f0 <- Numpy.getitem integrand i ;;
          Ok (sscale ((x1 - x0) / 2) (sadd f1 f0)))
       (seq 0 (length iv - 1))
  = Ok (interval_terms iv integrand).
Proof.
  revert integrand. induction iv as [| x0 iv IH]; intros integrand Hlen.
  - reflexivity.
  - destruct iv as [| x1 iv].
    + destruct integrand as [| f0 [| f1 fs]]; reflexivity.
    + destruct integrand as [| f0 [| f1 fs]]; simpl in Hlen; try lia.
      specialize (IH (f1 :: fs) ltac:(simpl; lia)).
      change (length (x0 :: x1 :: iv) - 1)%nat with (S (length iv)).
      change (length (x1 :: iv) - 1)%nat
        with (length iv - 0)%nat in IH.
      rewrite Nat.sub_0_r in IH.
      cbn [seq mapM]. rewrite <- seq_shift, mapM_map.
      change (interval_terms (x0 :: x1 :: iv) (f0 :: f1 :: fs))
        with ((x1 - x0) / 2 * (f1 + f0)
              :: interval_terms (x1 :: iv) (f1 :: fs)).
      match goal with
      | |- context [mapM ?f (seq 0 (length iv))] =>
          replace (mapM f (seq 0 (length iv)))
            with (Ok (interval_terms (x1 :: iv) (f1 :: fs)))
            by (rewrite <- IH; apply mapM_ext_in; intros i _; reflexivity)
      end.
      reflexivity.
Qed.

Lemma local_branch_value (iv integrand : list R) :
  (2 <= length iv)%nat -> (length iv <= length integrand)%nat ->
  Trapezoidal integrand iv false
  = Ok (Numpy.sum (interval_terms iv integrand)).
Proof.
  intros Hiv Hlen. unfold Trapezoidal.
  destruct iv as [| x0 [| x1 iv]]; simpl in Hiv; try lia.
  change (Numpy.getitem (x0 :: x1 :: iv) 1) with (Ok x1).
  change (Numpy.getitem (x0 :: x1 :: iv) 0) with (Ok x0).
  rewrite !bind_Ok. cbv iota.
  rewrite (local_branch_terms (x0 :: x1 :: iv) integrand Hlen).
  reflexivity.
Qed.

Lemma interval_terms_affine (a b : R) (iv : list R) :
  iv <> [] ->
  Numpy.sum (interval_terms iv (map (fun x => a * x + b) iv))
  = a * ((last iv 0) ^ 2 - (nth 0 iv 0) ^ 2) / 2
    + b * (last iv 0 - nth 0 iv 0).
Proof.
  unfold Numpy.sum. cbn [sadd szero Scalar_R].
  induction iv as [| x0 iv IH]; intros Hne; [contradiction |].
  destruct iv as [| x1 iv].
  - simpl. field.
  - specialize (IH ltac:(discriminate)).
    change (interval_terms (x0 :: x1 :: iv)
                           (map (fun x => a * x + b) (x0 :: x1 :: iv)))
      with ((x1 - x0) / 2 * ((a * x1 + b) + (a * x0 + b))
            :: interval_terms (x1 :: iv)
                              (map (fun x => a * x + b) (x1 :: iv))).
    cbn [fold_right]. rewrite IH.
    change (last (x0 :: x1 :: iv) 0) with (last (x1 :: iv) 0).
    cbn [nth]. field.
Qed.

(** X4. On any grid of at least 2 points, evenly spaced or not, the
    per-interval branch integrates an affine integrand [a*x + b] exactly:
    it returns [a * (x_last^2 - x_first^2) / 2 + b * (x_last - x_first)]. *)
Theorem Trapezoidal_local_exact_on_affine (a b : R) (iv : list R) :
  (2 <= length iv)%nat ->
  Trapezoidal (map (fun x => a * x + b) iv) iv false
  = Ok (a * ((last iv 0) ^ 2 - (nth 0 iv 0) ^ 2) / 2
        + b * (last iv 0 - nth 0 iv 0)).
Proof.
  intros Hiv.
  rewrite local_branch_value by (try rewrite length_map; lia).
  f_equal. apply interval_terms_affine.
  destruct iv; [simpl in Hiv; lia | discriminate].
Qed.

Lemma Trapezoidal_local_exact_on_affine_witness :
  Trapezoidal (map (fun x => 2 * x + 1) [0; 1; 3]) [0; 1; 3] false
  = Ok (2 * ((last [0; 1; 3] 0) ^ 2 - (nth 0 [0; 1; 3] 0) ^ 2) / 2
        + 1 * (last [0; 1; 3] 0 - nth 0 [0; 1; 3] 0)).
Proof. apply (Trapezoidal_local_exact_on_affine 2 1 [0; 1; 3]). simpl. lia. Defined.

Lemma interval_terms_app (iv integrand extra : list R) :
  (length iv <= length integrand)%nat ->
  interval_terms iv (integrand ++ extra) = interval_terms iv integrand.
Proof.
  revert integrand. induction iv as [| x0 iv IH]; intros integrand Hlen.
  - reflexivity.
  - destruct iv as [| x1 iv].
    + destruct integrand as [| f0 [| f1 fs]]; simpl in Hlen; try lia;
        reflexivity.
    + destruct integrand as [| f0 [| f1 fs]]; simpl in Hlen; try lia.
      specialize (IH (f1 :: fs) ltac:(simpl; lia)).
      change (((x1 - x0) / 2 * (f1 + f0)
               :: interval_terms (x1 :: iv) ((f1 :: fs) ++ extra))
              = (x1 - x0) / 2 * (f1 + f0)
                :: interval_terms (x1 :: iv) (f1 :: fs)).
      rewrite IH. reflexivity.
Qed.

(** X5. The per-interval branch does not compare the lengths of its
    arguments either: an integrand shorter than the grid raises an index
    error, and the entries of a longer integrand past the grid length are
    ignored. *)
Theorem Trapezoidal_local_lengths (integrand extra iv : list R) :
  (2 <= length iv)%nat ->
  ((length integrand < length iv)%nat ->
   Trapezoidal integrand iv false = Raise IndexError) /\
  (length integrand = length iv ->
   Trapezoidal (integrand ++ extra) iv false
   = Trapezoidal integrand iv false).
Proof.
  intros Hiv. split.
  - intros Hshort. unfold Trapezoidal.
    destruct (getitem_Ok iv 1) as [x1 Hx1]; [lia |].
    destruct (getitem_Ok iv 0) as [x0 Hx0]; [lia |].
    rewrite Hx1, Hx0, !bind_Ok. cbv iota.
    set (j := (length integrand - 1)%nat).
    replace (length iv - 1)%nat with (j + S (length iv - 2 - j))%nat
      by (unfold j; lia).
    rewrite seq_app. cbn [seq].
    rewrite (mapM_raises _ (seq 0 j) (0 + j)%nat _ IndexError);
      [reflexivity | |].
    + intros i Hi. apply in_seq in Hi.
      destruct (getitem_Ok iv (i + 1)) as [a1 Ha1]; [unfold j in Hi; lia |].
      destruct (getitem_Ok iv i) as [a0 Ha0]; [unfold j in Hi; lia |].
      destruct (getitem_Ok integrand (i + 1)) as [b1 Hb1];
        [unfold j in Hi; lia |].
      destruct (getitem_Ok integrand i) as [b0 Hb0];
        [unfold j in Hi; lia |].
      rewrite Ha1, Ha0, Hb1, Hb0, !bind_Ok. eexists; reflexivity.
    + destruct (getitem_Ok iv (0 + j + 1)) as [a1 Ha1]; [unfold j; lia |].
      destruct (getitem_Ok iv (0 + j)) as [a0 Ha0]; [unfold j; lia |].
      rewrite Ha1, Ha0, !bind_Ok.
      rewrite (getitem_Raise integrand (0 + j + 1)) by (unfold j; lia).
      reflexivity.
  - intros Hsame.
    rewrite !local_branch_value by (try rewrite length_app; lia).
    rewrite interval_terms_app by lia. reflexivity.
Qed.

Lemma Trapezoidal_local_lengths_witness :
  Trapezoidal [1; 1] [0; 1; 2] false = Raise IndexError /\
  Trapezoidal ([1; 1; 1] ++ [9]) [0; 1; 2] false
  = Trapezoidal [1; 1; 1] [0; 1; 2] false.
Proof.
  split.
  - apply (proj1 (Trapezoidal_local_lengths [1; 1] [] [0; 1; 2]
                    ltac:(simpl; lia))).
    simpl. lia.
  - apply (proj2 (Trapezoidal_local_lengths [1; 1; 1] [9] [0; 1; 2]
                    ltac:(simpl; lia))).
    reflexivity.
Defined.

(** ** [TimeScaling] on arrays *)

(** X6. On arrays the two directions of [TimeScaling] undo each other in
    both orders, and neither changes the number of samples. *)
Theorem TimeScaling_array_round_trip (t : list R) :
  TimeScaling_array (TimeScaling_array t false) true = t /\
  TimeScaling_array (TimeScaling_array t true) false = t /\
  (forall reverse, length (TimeScaling_array t reverse) = length t).
Proof.
  unfold TimeScaling_array. repeat split.
  - rewrite map_map. rewrite <- (map_id t) at 2. apply map_ext.
    intros x. unfold TimeScaling. simpl. field. lra.
  - rewrite map_map. rewrite <- (map_id t) at 2. apply map_ext.
    intros x. unfold TimeScaling. simpl. field. lra.
  - intros reverse. apply length_map.
Qed.

(** ** [PartialHR], further *)

Lemma PartialHR_term_nonneg (f q : R) : 0 <= f -> 0 <= PartialHR_term f q.
Proof.
  intros Hf. unfold PartialHR_term. pose proof PI_RGT_0 as HPI.
  assert (Hq : 0 <= q ^ 2) by (apply pow2_ge_0).
  apply Rmult_le_pos; [| lra].
  apply Rmult_le_pos; [| lra].
  apply Rmult_le_pos; [| exact Hq].
  apply Rmult_le_pos; lra.
Qed.

Lemma clamp_negative_nonneg (freqs : list R) :
  Forall (fun f => 0 <= f) (clamp_negative freqs).
Proof.
  unfold clamp_negative. apply Forall_forall. intros f Hin.
  apply in_map_iff in Hin. destruct Hin as [g [<- _]].
  destruct (Rlt_dec g 0); lra.
Qed.

Lemma broadcast2_Forall {A B X : Type} (f : A -> B -> X) (P : X -> Prop)
      (xs : list A) (ys : list B) (r : list X) :
  (forall x y, In x xs -> In y ys -> P (f x y)) ->
  Numpy.broadcast2 f xs ys = Ok r -> Forall P r.
Proof.
  intros HP. unfold Numpy.broadcast2.
  assert (Hzip : Forall P (map (fun p => f (fst p) (snd p)) (combine xs ys))).
  { apply Forall_forall. intros z Hz. apply in_map_iff in Hz.
    destruct Hz as [[x y] [<- Hin]]. simpl.
    apply HP; [eapply in_combine_l | eapply in_combine_r]; exact Hin. }
  destruct (Nat.eqb (length xs) (length ys)).
  - intros H. injection H as <-. exact Hzip.
  - destruct xs as [| x [| x' xs]]; destruct ys as [| y [| y' ys]];
      intros H; try discriminate; injection H as <-; simpl;
      repeat (apply Forall_cons; [apply HP; simpl; auto |]);
      try apply Forall_nil;
      apply Forall_forall; intros z Hz; apply in_map_iff in Hz;
      destruct Hz as [w [<- Hw]]; apply HP; simpl; auto.
Qed.

(** X7. The frequencies that [ReadPhononBands] returns have their negative
    entries set to zero, and from such frequencies (all of them or a prefix,
    as [CalculateSpectrum] keeps) every partial Huang-Rhys factor that
    [PartialHR] returns is non-negative, whatever the [qk]. *)
Theorem PartialHR_nonneg_after_clamp (raw qk Sk : list R) (kept : nat) :
  PartialHR (firstn kept (clamp_negative raw)) qk = Ok Sk ->
  Forall (fun f => 0 <= f) (clamp_negative raw) /\
  Forall (fun s => 0 <= s) Sk.
Proof.
  intros HSk. pose proof (clamp_negative_nonneg raw) as Hnn.
  split; [exact Hnn |].
  unfold PartialHR in HSk.
  apply (broadcast2_Forall PartialHR_term (fun s => 0 <= s) _ _ _) in HSk;
    [exact HSk |].
  intros f q Hf _. apply PartialHR_term_nonneg.
  rewrite Forall_forall in Hnn. apply Hnn.
  rewrite <- (firstn_skipn kept (clamp_negative raw)).
  apply in_or_app. left. exact Hf.
Qed.

Lemma PartialHR_nonneg_after_clamp_witness :
  Forall (fun f => 0 <= f) (clamp_negative [-1; 2; 3]) /\
  Forall (fun s => 0 <= s)
         (map (fun p => PartialHR_term (fst p) (snd p))
              (combine (firstn 2 (clamp_negative [-1; 2; 3])) [1; -1])).
Proof.
  apply (PartialHR_nonneg_after_clamp [-1; 2; 3] [1; -1] _ 2).
  reflexivity.
Defined.

(** X8. [PartialHR] depends on the configuration coordinates through their
    squares only: changing the sign of every [qk] changes nothing. *)
Theorem PartialHR_even_in_qk (freqs qk : list R) :
  PartialHR freqs (map Ropp qk) = PartialHR freqs qk.
Proof.
  assert (Hterm : forall f q, PartialHR_term f (- q) = PartialHR_term f q)
    by (intros f q; unfold PartialHR_term; field; lra).
  unfold PartialHR, Numpy.broadcast2. rewrite length_map.
  destruct (Nat.eqb (length freqs) (length qk)).
  - f_equal. revert qk. induction freqs as [| f freqs IH]; intros [| q qk];
      try reflexivity.
    cbn [map combine fst snd]. rewrite Hterm. f_equal. apply IH.
  - assert (Hl : forall f l, map (PartialHR_term f) (map Ropp l)
                             = map (PartialHR_term f) l)
      by (intros f l; rewrite map_map; apply map_ext; intros a; apply Hterm).
    assert (Hr : forall q l, map (fun f => PartialHR_term f (- q)) l
                             = map (fun f => PartialHR_term f q) l)
      by (intros q l; apply map_ext; intros a; apply Hterm).
    destruct freqs as [| f [| f' freqs]].
    + destruct qk as [| q [| q' qk]]; reflexivity.
    + cbv beta iota. rewrite Hl. reflexivity.
    + destruct qk as [| q [| q' qk]]; cbn [map]; try reflexivity.
      rewrite !Hterm, Hr. reflexivity.
Qed.

(** X9. [PartialHR] has no length check of its own: lengths that differ
    with neither equal to 1 raise numpy's shape error, while a single
    frequency is stretched over all the [qk] (and a single [qk] over all the
    frequencies). *)
Theorem PartialHR_shapes (freqs qk : list R) :
  (length freqs <> length qk -> length freqs <> 1%nat ->
   length qk <> 1%nat -> PartialHR freqs qk = Raise ValueError) /\
  (forall f, PartialHR [f] qk = Ok (map (PartialHR_term f) qk)) /\
  (forall q, PartialHR freqs [q]
             = Ok (map (fun f => PartialHR_term f q) freqs)).
Proof.
  split; [| split].
  - intros H1 H2 H3. apply broadcast2_Raise; assumption.
  - intros f. unfold PartialHR, Numpy.broadcast2.
    destruct (Nat.eqb_spec (length [f]) (length qk)) as [Heq | _];
      [| reflexivity].
    destruct qk as [| q [| q' qk]]; simpl in Heq; try lia. reflexivity.
  - intros q. unfold PartialHR, Numpy.broadcast2.
    destruct (Nat.eqb_spec (length freqs) (length [q])) as [Heq | _].
    + destruct freqs as [| f [| f' freqs]]; simpl in Heq; try lia.
      reflexivity.
    + destruct freqs as [| f [| f' freqs]]; reflexivity.
Qed.

Lemma PartialHR_shapes_witness :
  PartialHR [1; 2] [1; 2; 3] = Raise ValueError.
Proof.
  apply (proj1 (PartialHR_shapes [1; 2] [1; 2; 3])); simpl; lia.
Defined.

(** ** [ConfigCoordinates], further *)

Lemma bind_Ok_inv {A B : Type} (r : result A) (k : A -> result B) (b : B) :
  bind r k = Ok b -> exists a, r = Ok a /\ k a = Ok b.
Proof.
  destruct r as [a | e]; [| discriminate].
  intros H. exists a. split; [reflexivity | exact H].
Qed.

Lemma mapM_Forall {A B : Type} (f : A -> result B) (P : B -> Prop)
      (l : list A) (bs : list B) :
  (forall x b, In x l -> f x = Ok b -> P b) ->
  mapM f l = Ok bs -> Forall P bs.
Proof.
  revert bs. induction l as [| a l IH]; intros bs HP H.
  - injection H as <-. constructor.
  - cbn [mapM] in H.
    apply bind_Ok_inv in H. destruct H as [b [Hb H]].
    apply bind_Ok_inv in H. destruct H as [bs' [Hbs H]].
    injection H as <-. constructor.
    + apply (HP a b); [left; reflexivity | exact Hb].
    + apply IH; [| exact Hbs].
      intros x c Hx. apply HP. right. exact Hx.
Qed.

Lemma mapM_pure {A B : Type} (f : A -> result B) (g : A -> B) (l : list A) :
  (forall x, In x l -> f x = Ok (g x)) -> mapM f l = Ok (map g l).
Proof.
  induction l as [| a l IH]; intros H; [reflexivity |].
  cbn [mapM map]. rewrite (H a) by (left; reflexivity).
  rewrite bind_Ok, IH by (intros x Hx; apply H; right; exact Hx).
  reflexivity.
Qed.

Lemma getitem_In {A : Type} (l : list A) (i : nat) (a : A) :
  Numpy.getitem l i = Ok a -> In a l.
Proof.
  unfold Numpy.getitem. destruct (nth_error l i) as [b |] eqn:E;
    [| discriminate].
  intros H. injection H as <-. eapply nth_error_In. exact E.
Qed.

Lemma sum_zeros (l : list R) : Forall (fun x => x = 0) l -> Numpy.sum l = 0.
Proof.
  unfold Numpy.sum. cbn [sadd szero Scalar_R].
  induction 1 as [| x l Hx _ IH]; [reflexivity |].
  cbn [fold_right]. rewrite Hx, IH. ring.
Qed.

Lemma mapM_length {A B : Type} (f : A -> result B)
      (l : list A) (bs : list B) :
  mapM f l = Ok bs -> length bs = length l.
Proof.
  revert bs. induction l as [| a l IH]; intros bs H.
  - injection H as <-. reflexivity.
  - cbn [mapM] in H.
    apply bind_Ok_inv in H. destruct H as [b [_ H]].
    apply bind_Ok_inv in H. destruct H as [bs' [Hbs H]].
    injection H as <-. simpl. f_equal. apply IH. exact Hbs.
Qed.

Lemma in_combine_diag {A : Type} (l : list A) (a b : A) :
  In (a, b) (combine l l) -> a = b.
Proof.
  induction l as [| x l IH]; [contradiction |].
  intros [H | H]; [congruence | apply IH; exact H].
Qed.

(** X10. When the excited and the ground geometry are the same array, every
    configuration coordinate that [ConfigCoordinates] returns is zero,
    whatever the (non-negative) masses and the modes. *)
Theorem ConfigCoordinates_no_displacement
        (masses : list R) (R_gs : list vec3) (modes : list (list vec3))
        (qk : list R) :
  Forall (fun m => 0 <= m) masses ->
  ConfigCoordinates masses R_gs R_gs modes = Ok qk ->
  length qk = length modes /\ Forall (fun q => q = 0) qk.
Proof.
  unfold ConfigCoordinates. intros _ H.
  rewrite broadcast2_same_length in H by reflexivity.
  rewrite bind_Ok in H.
  apply bind_Ok_inv in H. destruct H as [mR [HmR Hqk]].
  assert (Hzero : Forall (fun v => v = (0, 0, 0)) mR).
  { apply (mapM_Forall _ _ _ _) with (2 := HmR).
    intros i v _ Hv.
    apply bind_Ok_inv in Hv. destruct Hv as [m [_ Hv]].
    apply bind_Ok_inv in Hv. destruct Hv as [r [Hr Hv]].
    injection Hv as <-. apply getitem_In in Hr.
    apply in_map_iff in Hr. destruct Hr as [[a b] [<- Hin]].
    apply in_combine_diag in Hin. subst b.
    destruct a as [[ax ay] az]. simpl. f_equal; [f_equal |]; ring. }
  split; [apply (mapM_length _ _ _ Hqk) |].
  apply (mapM_Forall _ _ _ _) with (2 := Hqk).
  intros mode q _ Hq.
  apply bind_Ok_inv in Hq. destruct Hq as [prod [Hprod Hq]].
  injection Hq as <-. apply sum_zeros.
  apply Forall_map.
  unfold mul_rows in Hprod. destruct mR as [| r mR]; [discriminate |].
  apply (broadcast2_Forall vmul (fun v => vsum v = 0) _ _ _)
    with (2 := Hprod).
  intros x y Hx _. rewrite Forall_forall in Hzero.
  rewrite (Hzero x Hx). destruct y as [[bx b_y] bz]. simpl. ring.
Qed.

Lemma ConfigCoordinates_no_displacement_witness :
  exists qk,
    ConfigCoordinates [1] [(1, 2, 3)] [(1, 2, 3)] [[(1, 0, 0)]] = Ok qk /\
    length qk = 1%nat /\ Forall (fun q => q = 0) qk.
Proof.
  eexists. split; [reflexivity |].
  apply (ConfigCoordinates_no_displacement [1] [(1, 2, 3)] [[(1, 0, 0)]]).
  - repeat constructor. lra.
  - reflexivity.
Defined.

Lemma mass_weighted_zip (masses : list R) (R_diff : list vec3) :
  (length masses <= length R_diff)%nat ->
  mass_weighted masses R_diff
  = Ok (map (fun p => vscale (fst p) (snd p)) (combine masses R_diff)).
Proof.
  unfold mass_weighted. revert R_diff.
  induction masses as [| m masses IH]; intros R_diff Hlen; [reflexivity |].
  destruct R_diff as [| r R_diff]; [simpl in Hlen; lia |].
  specialize (IH R_diff ltac:(simpl in Hlen; lia)).
  cbn [length seq mapM combine map fst snd].
  change (Numpy.getitem (m :: masses) 0) with (Ok m).
  change (Numpy.getitem (r :: R_diff) 0) with (Ok r).
  rewrite !bind_Ok, <- seq_shift, mapM_map.
  match goal with
  | |- context [mapM ?f (seq 0 (length masses))] =>
      replace (mapM f (seq 0 (length masses)))
        with (Ok (map (fun p => vscale (fst p) (snd p))
                      (combine masses R_diff)))
        by (rewrite <- IH; apply mapM_ext_in; intros i _; reflexivity)
  end.
  reflexivity.
Qed.

Lemma projection_sum (masses : list R) (R_diff mode : list vec3) :
  Numpy.sum
    (map vsum
         (map (fun p => vmul (fst p) (snd p))
              (combine (map (fun p => vscale (fst p) (snd p))
                            (combine (map sqrt masses) R_diff))
                       mode)))
  = Numpy.sum
      (map (fun p => sqrt (fst (fst p)) * vdot (snd (fst p)) (snd p))
           (combine (combine masses R_diff) mode)).
Proof.
  unfold Numpy.sum. cbn [sadd szero Scalar_R].
  revert R_diff mode.
  induction masses as [| m masses IH]; intros [| d R_diff] [| e mode];
    try reflexivity.
  cbn [map combine fold_right fst snd]. rewrite IH.
  destruct d as [[dx dy] dz], e as [[ex ey] ez].
  unfold vdot. simpl. ring.
Qed.

(** X11. When the (non-negative) masses, both geometries and every mode
    have the same number [n >= 1] of atoms, [ConfigCoordinates] returns, for
    each mode, the sum over the atoms of
    [sqrt(mass) * ((R_es - R_gs) . eigenvector)]. *)
Theorem ConfigCoordinates_is_projection
        (masses : list R) (R_es R_gs : list vec3)
        (modes : list (list vec3)) (n : nat) :
  (1 <= n)%nat ->
  Forall (fun m => 0 <= m) masses ->
  length masses = n -> length R_es = n -> length R_gs = n ->
  Forall (fun m => length m = n) modes ->
  ConfigCoordinates masses R_es R_gs modes
  = Ok (map (projection masses R_es R_gs) modes).
Proof.
  intros Hn _ Hm Hes Hgs Hall. unfold ConfigCoordinates.
  rewrite broadcast2_same_length by congruence. rewrite bind_Ok.
  set (R_diff := map (fun p => vsub (fst p) (snd p)) (combine R_es R_gs)).
  assert (Hd : length R_diff = n).
  { unfold R_diff. rewrite length_map, length_combine, Hes, Hgs.
    apply Nat.min_id. }
  rewrite mass_weighted_zip by (rewrite length_map; lia).
  rewrite bind_Ok. unfold project.
  set (mR := map (fun p => vscale (fst p) (snd p))
                 (combine (map sqrt masses) R_diff)).
  assert (HmR : length mR = n).
  { unfold mR. rewrite length_map, length_combine, length_map, Hm, Hd.
    apply Nat.min_id. }
  apply mapM_pure. intros mode Hin.
  rewrite Forall_forall in Hall. specialize (Hall mode Hin).
  unfold mul_rows. destruct mR as [| r mR'] eqn:EmR;
    [simpl in HmR; lia |].
  rewrite broadcast2_same_length by congruence.
  rewrite bind_Ok. f_equal. rewrite <- EmR. unfold mR, projection.
  apply projection_sum.
Qed.

Lemma ConfigCoordinates_is_projection_witness :
  ConfigCoordinates [4; 1] [(1, 0, 0); (0, 1, 0)] [(0, 0, 0); (0, 0, 0)]
                    [[(1, 0, 0); (0, 1, 0)]]
  = Ok (map (projection [4; 1] [(1, 0, 0); (0, 1, 0)]
                        [(0, 0, 0); (0, 0, 0)])
            [[(1, 0, 0); (0, 1, 0)]]).
Proof.
  apply (ConfigCoordinates_is_projection
           [4; 1] [(1, 0, 0); (0, 1, 0)] [(0, 0, 0); (0, 0, 0)]
           [[(1, 0, 0); (0, 1, 0)]] 2);
    try reflexivity; [lia | repeat constructor; lra | repeat constructor].
Defined.

(** ** The broadening kernels *)

Lemma pow2_pos (x : R) : x <> 0 -> 0 < x ^ 2.
Proof.
  intros Hx. pose proof (pow2_ge_0 x) as Hge.
  pose proof (pow_nonzero x 2 Hx) as Hne. lra.
Qed.

Lemma Gaussian_prefactor_pos (sigma : R) :
  sigma <> 0 -> 0 < 1 / sqrt (2 * PI * (sigma ^ 2)).
Proof.
  intros Hs. pose proof PI_RGT_0 as HPI.
  assert (H2 : 0 < sigma ^ 2) by (apply pow2_pos; exact Hs).
  apply Rdiv_lt_0_compat; [lra |]. apply sqrt_lt_R0. nra.
Qed.

Lemma exp_le_1 (x : R) : x <= 0 -> exp x <= 1.
Proof.
  intros [Hlt | ->]; [| rewrite exp_0; lra].
  rewrite <- exp_0. left. apply exp_increasing. exact Hlt.
Qed.

(** X12. For [sigma <> 0] the Gaussian kernel is nowhere negative,
    symmetric about [x0], nowhere above its value [1/sqrt(2 pi sigma^2)] at
    [x0], and unchanged when [sigma] changes sign. *)
Theorem Gaussian_shape (x0 sigma : R) :
  sigma <> 0 ->
  (forall x, 0 <= Gaussian x x0 sigma) /\
  (forall d, Gaussian (x0 + d) x0 sigma = Gaussian (x0 - d) x0 sigma) /\
  Gaussian x0 x0 sigma = 1 / sqrt (2 * PI * (sigma ^ 2)) /\
  (forall x, Gaussian x x0 sigma <= Gaussian x0 x0 sigma) /\
  (forall x, Gaussian x x0 (- sigma) = Gaussian x x0 sigma).
Proof.
  intros Hs. pose proof (Gaussian_prefactor_pos sigma Hs) as Hpre.
  assert (H2 : 0 < sigma ^ 2) by (apply pow2_pos; exact Hs).
  assert (Hpeak : Gaussian x0 x0 sigma = 1 / sqrt (2 * PI * (sigma ^ 2))).
  { unfold Gaussian.
    replace ((- ((x0 - x0) ^ 2)) / (2 * (sigma ^ 2))) with 0
      by (field; lra).
    rewrite exp_0. ring. }
  split; [| split; [| split; [| split]]].
  - intros x. unfold Gaussian. left.
    apply Rmult_lt_0_compat; [exact Hpre |]. apply exp_pos.
  - intros d. unfold Gaussian. do 2 f_equal. field. lra.
  - exact Hpeak.
  - intros x. rewrite Hpeak. unfold Gaussian.
    rewrite <- (Rmult_1_r (1 / sqrt (2 * PI * sigma ^ 2))) at 2.
    apply Rmult_le_compat_l; [lra |]. apply exp_le_1.
    assert (Hsq : 0 <= (x - x0) ^ 2) by apply pow2_ge_0.
    assert (Hinv : 0 < / (2 * sigma ^ 2))
      by (apply Rinv_0_lt_compat; lra).
    unfold Rdiv. nra.
  - intros x. unfold Gaussian.
    replace ((- sigma) ^ 2) with (sigma ^ 2) by ring. reflexivity.
Qed.

Lemma Gaussian_shape_witness :
  (forall x, 0 <= Gaussian x 50 6) /\
  (forall d, Gaussian (50 + d) 50 6 = Gaussian (50 - d) 50 6) /\
  Gaussian 50 50 6 = 1 / sqrt (2 * PI * (6 ^ 2)) /\
  (forall x, Gaussian x 50 6 <= Gaussian 50 50 6) /\
  (forall x, Gaussian x 50 (- 6) = Gaussian x 50 6).
Proof. apply (Gaussian_shape 50 6). lra. Defined.

(** X13. For [sigma > 0] the Lorentzian kernel is positive everywhere,
    symmetric about [x0], nowhere above its value [1/(pi * 0.8 sigma)] at
    [x0], and at half that value at distance [0.8 sigma] from [x0]; unlike
    the Gaussian it changes sign with [sigma]. *)
Theorem Lorentzian_shape (x0 sigma : R) :
  0 < sigma ->
  (forall x, 0 < Lorentzian x x0 sigma) /\
  (forall d, Lorentzian (x0 + d) x0 sigma = Lorentzian (x0 - d) x0 sigma) /\
  Lorentzian x0 x0 sigma = 1 / (PI * (0.8 * sigma)) /\
  (forall x, Lorentzian x x0 sigma <= Lorentzian x0 x0 sigma) /\
  Lorentzian (x0 + 0.8 * sigma) x0 sigma = Lorentzian x0 x0 sigma / 2 /\
  (forall x, Lorentzian x x0 (- sigma) = - Lorentzian x x0 sigma).
Proof.
  intros Hs. pose proof PI_RGT_0 as HPI.
  assert (Hw : 0 < sigma * 0.8) by lra.
  assert (Hden : forall x, 0 < (sigma * 0.8) ^ 2 + (x - x0) ^ 2).
  { intros x. assert (0 <= (x - x0) ^ 2) by apply pow2_ge_0.
    assert (0 < (sigma * 0.8) ^ 2) by (apply pow2_pos; lra). lra. }
  assert (Hnum : 0 < 1 / PI * (sigma * 0.8)).
  { apply Rmult_lt_0_compat; [| exact Hw].
    apply Rdiv_lt_0_compat; lra. }
  assert (Hpeak : Lorentzian x0 x0 sigma = 1 / (PI * (0.8 * sigma))).
  { unfold Lorentzian. replace (x0 - x0) with 0 by ring. field. lra. }
  split; [| split; [| split; [| split; [| split]]]].
  - intros x. unfold Lorentzian. apply Rdiv_lt_0_compat; [exact Hnum |].
    apply Hden.
  - intros d. unfold Lorentzian. f_equal. ring.
  - exact Hpeak.
  - intros x. unfold Lorentzian.
    replace (x0 - x0) with 0 by ring.
    unfold Rdiv at 1 3. apply Rmult_le_compat_l; [lra |].
    apply Rinv_le_contravar.
    + replace (0 ^ 2) with 0 by ring.
      assert (0 < (sigma * 0.8) ^ 2) by (apply pow2_pos; lra). lra.
    + assert (0 <= (x - x0) ^ 2) by apply pow2_ge_0.
      replace (0 ^ 2) with 0 by ring. lra.
  - unfold Lorentzian.
    pose proof (Hden x0) as H0. pose proof (Hden (x0 + 0.8 * sigma)) as H1.
    field. repeat split; lra.
  - intros x. unfold Lorentzian.
    replace ((- sigma * 0.8) ^ 2) with ((sigma * 0.8) ^ 2) by ring.
    specialize (Hden x). field. lra.
Qed.

Lemma Lorentzian_shape_witness :
  (forall x, 0 < Lorentzian x 50 6) /\
  (forall d, Lorentzian (50 + d) 50 6 = Lorentzian (50 - d) 50 6) /\
  Lorentzian 50 50 6 = 1 / (PI * (0.8 * 6)) /\
  (forall x, Lorentzian x 50 6 <= Lorentzian 50 50 6) /\
  Lorentzian (50 + 0.8 * 6) 50 6 = Lorentzian 50 50 6 / 2 /\
  (forall x, Lorentzian x 50 (- 6) = - Lorentzian x 50 6).
Proof. apply (Lorentzian_shape 50 6). lra. Defined.

(** ** [SpectralFunction] *)

Lemma sum_app (l1 l2 : list R) :
  Numpy.sum (l1 ++ l2) = Numpy.sum l1 + Numpy.sum l2.
Proof.
  unfold Numpy.sum. cbn [sadd szero Scalar_R].
  induction l1 as [| a l1 IH]; [simpl; ring |].
  cbn [app fold_right]. rewrite IH. ring.
Qed.

Lemma sum_nonneg (l : list R) :
  Forall (fun x => 0 <= x) l -> 0 <= Numpy.sum l.
Proof.
  unfold Numpy.sum. cbn [sadd szero Scalar_R].
  induction 1 as [| x l Hx _ IH]; [simpl; lra |].
  cbn [fold_right]. lra.
Qed.

Lemma np_dot_kernel (Lorentz : bool) (sigma E : R) (Sk Ek : list R) :
  length Sk = length Ek ->
  np_dot Sk (map (fun ek => kernel Lorentz E ek sigma) Ek)
  = Ok (mode_sum Lorentz sigma Sk Ek E).
Proof.
  intros Hlen. unfold np_dot. rewrite length_map, Hlen, Nat.eqb_refl.
  f_equal. unfold mode_sum. f_equal. clear Hlen. revert Ek.
  induction Sk as [| s Sk IH]; intros [| ek Ek]; try reflexivity.
  cbn [map combine fst snd]. rewrite IH. reflexivity.
Qed.

Lemma SpectralFunction_kernel (Sk Ek E_meV : list R) (sigma : R)
      (Lorentz : bool) :
  SpectralFunction Sk Ek E_meV sigma Lorentz
  = mapM (fun i => np_dot Sk (map (fun ek => kernel Lorentz i ek sigma) Ek))
         E_meV.
Proof. destruct Lorentz; reflexivity. Qed.

Lemma SpectralFunction_value (Sk Ek E_meV : list R) (sigma : R)
      (Lorentz : bool) :
  length Sk = length Ek ->
  SpectralFunction Sk Ek E_meV sigma Lorentz
  = Ok (map (mode_sum Lorentz sigma Sk Ek) E_meV).
Proof.
  intros Hlen. rewrite SpectralFunction_kernel. apply mapM_pure.
  intros i _. apply np_dot_kernel. exact Hlen.
Qed.

(** X14. With as many Huang-Rhys factors as mode energies and a non-zero
    [sigma], [SpectralFunction] returns one sample per grid energy [E], equal to the
    sum over the modes of [Sk_k * kernel(E, Ek_k, sigma)], the kernel being
    the Gaussian unless [Lorentz] is set. *)
Theorem SpectralFunction_sum_over_modes
        (Sk Ek E_meV : list R) (sigma : R) (Lorentz : bool) :
  sigma <> 0 -> length Sk = length Ek ->
  exists S_E,
    SpectralFunction Sk Ek E_meV sigma Lorentz = Ok S_E /\
    length S_E = length E_meV /\
    forall j, (j < length E_meV)%nat ->
      nth j S_E 0
      = Numpy.sum
          (map (fun p => fst p
                         * (if Lorentz then Lorentzian (nth j E_meV 0)
                                                       (snd p) sigma
                            else Gaussian (nth j E_meV 0) (snd p) sigma))
               (combine Sk Ek)).
Proof.
  intros _ Hlen. exists (map (mode_sum Lorentz sigma Sk Ek) E_meV).
  split; [apply SpectralFunction_value; exact Hlen |].
  split; [apply length_map |].
  intros j Hj.
  rewrite nth_indep with (d' := mode_sum Lorentz sigma Sk Ek 0)
    by (rewrite length_map; exact Hj).
  rewrite (map_nth (mode_sum Lorentz sigma Sk Ek)).
  unfold mode_sum, kernel. destruct Lorentz; reflexivity.
Qed.

Lemma SpectralFunction_sum_over_modes_witness :
  exists S_E,
    SpectralFunction [1; 2] [50; 60] [0; 50] 6 false = Ok S_E /\
    length S_E = length [0; 50] /\
    forall j, (j < length [0; 50])%nat ->
      nth j S_E 0
      = Numpy.sum
          (map (fun p => fst p
                         * (if false then Lorentzian (nth j [0; 50] 0)
                                                     (snd p) 6
                            else Gaussian (nth j [0; 50] 0) (snd p) 6))
               (combine [1; 2] [50; 60])).
Proof.
  apply (SpectralFunction_sum_over_modes [1; 2] [50; 60] [0; 50] 6 false).
  - lra.
  - reflexivity.
Defined.

(** X15. [SpectralFunction] meets a length mismatch between [Sk] and [Ek]
    only inside [np.dot]: it raises a shape error as soon as the energy grid
    has one point, and returns the empty array, without any error, on an
    empty grid. *)
Theorem SpectralFunction_mismatch
        (Sk Ek E_meV : list R) (sigma : R) (Lorentz : bool) :
  length Sk <> length Ek ->
  (E_meV <> [] ->
   SpectralFunction Sk Ek E_meV sigma Lorentz = Raise ValueError) /\
  SpectralFunction Sk Ek [] sigma Lorentz = Ok [].
Proof.
  intros Hne. rewrite !SpectralFunction_kernel. split; [| reflexivity].
  intros HE. destruct E_meV as [| e E_meV]; [contradiction |].
  cbn [mapM]. unfold np_dot at 1. rewrite length_map.
  destruct (Nat.eqb_spec (length Sk) (length Ek)) as [Heq | _];
    [contradiction | reflexivity].
Qed.

Lemma SpectralFunction_mismatch_witness :
  SpectralFunction [1; 2] [50] [0; 1] 6 false = Raise ValueError /\
  SpectralFunction [1; 2] [50] [] 6 false = Ok [].
Proof.
  split.
  - apply (proj1 (SpectralFunction_mismatch [1; 2] [50] [0; 1] 6 false
                    ltac:(simpl; lia))).
    discriminate.
  - apply (proj2 (SpectralFunction_mismatch [1; 2] [50] [0; 1] 6 false
                    ltac:(simpl; lia))).
Defined.

Lemma kernel_pos (Lorentz : bool) (sigma x x0 : R) :
  0 < sigma -> 0 < kernel Lorentz x x0 sigma.
Proof.
  intros Hs. pose proof PI_RGT_0 as HPI. destruct Lorentz; unfold kernel.
  - cbn [Bool.eqb]. unfold Lorentzian.
    assert (0 <= (x - x0) ^ 2) by apply pow2_ge_0.
    assert (0 < (sigma * 0.8) ^ 2) by (apply pow2_pos; lra).
    apply Rdiv_lt_0_compat; [| lra].
    apply Rmult_lt_0_compat; [apply Rdiv_lt_0_compat; lra | lra].
  - cbn [Bool.eqb]. unfold Gaussian.
    apply Rmult_lt_0_compat; [| apply exp_pos].
    apply Gaussian_prefactor_pos. lra.
Qed.

(** X16. For [sigma > 0] and non-negative Huang-Rhys factors, every sample
    of the spectral function that [SpectralFunction] returns is
    non-negative, with either kernel. *)
Theorem SpectralFunction_nonneg
        (Sk Ek E_meV S_E : list R) (sigma : R) (Lorentz : bool) :
  0 < sigma -> Forall (fun s => 0 <= s) Sk ->
  SpectralFunction Sk Ek E_meV sigma Lorentz = Ok S_E ->
  Forall (fun s => 0 <= s) S_E.
Proof.
  intros Hs HSk H. rewrite SpectralFunction_kernel in H.
  apply (mapM_Forall _ _ _ _) with (2 := H).
  intros i v _ Hv. unfold np_dot in Hv.
  destruct (Nat.eqb (length Sk) _); [| discriminate].
  injection Hv as <-. apply sum_nonneg.
  apply Forall_forall. intros z Hz. apply in_map_iff in Hz.
  destruct Hz as [[s k] [<- Hin]]. cbn [fst snd sscale Scalar_R].
  apply Rmult_le_pos.
  - rewrite Forall_forall in HSk. apply HSk.
    eapply in_combine_l. exact Hin.
  - apply in_combine_r in Hin. apply in_map_iff in Hin.
    destruct Hin as [ek [<- _]]. left. apply kernel_pos. exact Hs.
Qed.

Lemma SpectralFunction_nonneg_witness :
  Forall (fun s => 0 <= s)
         (map (mode_sum false 6 [1; 2] [50; 60]) [0; 50]).
Proof.
  apply (SpectralFunction_nonneg [1; 2] [50; 60] [0; 50] _ 6 false).
  - lra.
  - repeat constructor; lra.
  - apply SpectralFunction_value. reflexivity.
Defined.

Lemma combine_app_same {A B : Type} (l1 l2 : list A) (k1 k2 : list B) :
  length l1 = length k1 ->
  combine (l1 ++ l2) (k1 ++ k2) = combine l1 k1 ++ combine l2 k2.
Proof.
  revert k1. induction l1 as [| a l1 IH]; intros [| b k1] Hlen;
    try discriminate; [reflexivity |].
  cbn [app combine]. f_equal. apply IH. simpl in Hlen. lia.
Qed.

Lemma mode_sum_app (Lorentz : bool) (sigma E : R)
      (Sk1 Ek1 Sk2 Ek2 : list R) :
  length Sk1 = length Ek1 ->
  mode_sum Lorentz sigma (Sk1 ++ Sk2) (Ek1 ++ Ek2) E
  = mode_sum Lorentz sigma Sk1 Ek1 E + mode_sum Lorentz sigma Sk2 Ek2 E.
Proof.
  intros Hlen. unfold mode_sum.
  rewrite combine_app_same by exact Hlen. rewrite map_app. apply sum_app.
Qed.

(** X17. The spectral function is additive over the modes: for a non-zero
    [sigma] and two sets of modes (each with as many factors as energies),
    the result on their
    concatenation is, sample by sample, the sum of the two results on the
    same grid. *)
Theorem SpectralFunction_additive
        (Sk1 Ek1 Sk2 Ek2 E_meV : list R) (sigma : R) (Lorentz : bool) :
  sigma <> 0 -> length Sk1 = length Ek1 -> length Sk2 = length Ek2 ->
  exists S1 S2,
    SpectralFunction Sk1 Ek1 E_meV sigma Lorentz = Ok S1 /\
    SpectralFunction Sk2 Ek2 E_meV sigma Lorentz = Ok S2 /\
    SpectralFunction (Sk1 ++ Sk2) (Ek1 ++ Ek2) E_meV sigma Lorentz
    = Ok (map (fun p => fst p + snd p) (combine S1 S2)).
Proof.
  intros _ H1 H2.
  exists (map (mode_sum Lorentz sigma Sk1 Ek1) E_meV),
         (map (mode_sum Lorentz sigma Sk2 Ek2) E_meV).
  split; [apply SpectralFunction_value; exact H1 |].
  split; [apply SpectralFunction_value; exact H2 |].
  rewrite SpectralFunction_value by (rewrite !length_app; congruence).
  f_equal. induction E_meV as [| e E_meV IH]; [reflexivity |].
  cbn [map combine fst snd]. rewrite IH.
  rewrite (mode_sum_app Lorentz sigma e Sk1 Ek1 Sk2 Ek2 H1). reflexivity.
Qed.

Lemma SpectralFunction_additive_witness :
  exists S1 S2,
    SpectralFunction [1] [50] [0; 50] 6 false = Ok S1 /\
    SpectralFunction [2] [60] [0; 50] 6 false = Ok S2 /\
    SpectralFunction ([1] ++ [2]) ([50] ++ [60]) [0; 50] 6 false
    = Ok (map (fun p => fst p + snd p) (combine S1 S2)).
Proof.
  apply (SpectralFunction_additive [1] [50] [2] [60] [0; 50] 6 false);
    [lra | reflexivity | reflexivity].
Defined.

(** ** [Fourier] and [InverseFourier] on any grid *)

Section Argsort.

Variable key : nat -> R.

Let key_le (i j : nat) : Prop := key i <= key j.

Lemma insert_by_perm (i : nat) (l : list nat) :
  Permutation (insert_by key i l) (i :: l).
Proof.
  induction l as [| j l IH]; [reflexivity |].
  cbn [insert_by]. destruct (Rleb (key j) (key i)); [| reflexivity].
  rewrite IH. apply perm_swap.
Qed.

Lemma insert_by_hd (a i : nat) (l : list nat) :
  key_le a i -> HdRel key_le a l -> HdRel key_le a (insert_by key i l).
Proof.
  intros Hai Hl. destruct l as [| j l]; cbn [insert_by].
  - constructor. exact Hai.
  - inversion Hl as [| ? ? Haj]; subst.
    destruct (Rleb (key j) (key i)); constructor; assumption.
Qed.

Lemma insert_by_sorted (i : nat) (l : list nat) :
  Sorted key_le l -> Sorted key_le (insert_by key i l).
Proof.
  induction 1 as [| j l Hl IH Hhd]; cbn [insert_by].
  - repeat constructor.
  - unfold Rleb. destruct (Rle_dec (key j) (key i)) as [Hle | Hgt].
    + constructor; [exact IH |]. apply insert_by_hd; assumption.
    + constructor; [constructor; assumption |].
      constructor. unfold key_le. lra.
Qed.

Lemma fold_insert_perm (idx acc : list nat) :
  Permutation (fold_left (fun acc i => insert_by key i acc) idx acc)
              (idx ++ acc).
Proof.
  revert acc. induction idx as [| i idx IH]; intros acc; [reflexivity |].
  cbn [fold_left]. rewrite IH.
  rewrite (insert_by_perm i acc). symmetry. apply Permutation_middle.
Qed.

Lemma fold_insert_sorted (idx acc : list nat) :
  Sorted key_le acc ->
  Sorted key_le (fold_left (fun acc i => insert_by key i acc) idx acc).
Proof.
  revert acc. induction idx as [| i idx IH]; intros acc Hacc; [exact Hacc |].
  cbn [fold_left]. apply IH. apply insert_by_sorted. exact Hacc.
Qed.

Lemma sorted_keys (l : list nat) :
  Sorted key_le l -> Sorted Rle (map key l).
Proof.
  induction 1 as [| j l Hl IH Hhd]; [constructor |].
  cbn [map]. constructor; [exact IH |].
  destruct Hhd; constructor. assumption.
Qed.

End Argsort.

Lemma argsort_perm (l : list R) :
  Permutation (argsort l) (seq 0 (length l)).
Proof.
  unfold argsort. rewrite fold_insert_perm, app_nil_r. reflexivity.
Qed.

Lemma argsort_length (l : list R) : length (argsort l) = length l.
Proof.
  rewrite (Permutation_length (argsort_perm l)). apply length_seq.
Qed.

Lemma argsort_in_range (l : list R) :
  Forall (fun i => (i < length l)%nat) (argsort l).
Proof.
  apply Forall_forall. intros i Hi.
  apply (Permutation_in _ (argsort_perm l)) in Hi.
  apply in_seq in Hi. lia.
Qed.

Lemma take_in_range {A : Type} (l : list A) (idx : list nat) (d : A) :
  Forall (fun i => (i < length l)%nat) idx ->
  Numpy.take l idx = Ok (map (fun i => nth i l d) idx).
Proof.
  intros Hall. unfold Numpy.take. apply mapM_pure. intros i Hi.
  rewrite Forall_forall in Hall. specialize (Hall i Hi).
  unfold Numpy.getitem.
  rewrite (nth_error_nth' l d Hall). reflexivity.
Qed.

Lemma take_out_of_range {A : Type} (l : list A) (idx : list nat) :
  Exists (fun i => (length l <= i)%nat) idx ->
  Numpy.take l idx = Raise IndexError.
Proof.
  unfold Numpy.take. induction idx as [| i idx IH]; intros Hex.
  - inversion Hex.
  - cbn [mapM]. destruct (Nat.lt_ge_cases i (length l)) as [Hlt | Hge].
    + destruct (getitem_Ok l i Hlt) as [a Ha]. rewrite Ha, bind_Ok.
      rewrite IH; [reflexivity |].
      inversion Hex as [? ? Hbad | ? ? Htl]; subst; [lia | exact Htl].
    + rewrite (getitem_Raise l i Hge). reflexivity.
Qed.

Lemma argsort_sorts (l : list R) :
  Sorted Rle (map (fun i => nth i l 0) (argsort l)) /\
  Permutation (map (fun i => nth i l 0) (argsort l)) l.
Proof.
  split.
  - apply sorted_keys. unfold argsort.
    apply fold_insert_sorted. constructor.
  - rewrite (Permutation_map _ (argsort_perm l)).
    replace (map (fun i => nth i l 0) (seq 0 (length l))) with l;
      [reflexivity |].
    symmetry. induction l as [| a l IH]; [reflexivity |].
    cbn [length seq map nth]. f_equal.
    rewrite <- seq_shift, map_map. exact IH.
Qed.

Lemma fft_length (x : list C) : length (FFT.fft x) = length x.
Proof. unfold FFT.fft. rewrite length_map, length_seq. reflexivity. Qed.

Lemma ifft_length (x : list C) : length (FFT.ifft x) = length x.
Proof. unfold FFT.ifft. rewrite length_map, length_seq. reflexivity. Qed.

Lemma fftfreq_length (n : nat) (d : R) : length (FFT.fftfreq n d) = n.
Proof. unfold FFT.fftfreq. rewrite length_map, length_seq. reflexivity. Qed.

Section Transform.

Variable sums : list C -> list C.
Hypothesis sums_length : forall f, length (sums f) = length f.
Variable s : R.

Let tr : list C -> result (list C) := FFT.checked sums.

Lemma transform_short_grid (iv : list R) (f : list C) :
  (length iv < 2)%nat -> transform_on_grid tr s iv f = Raise IndexError.
Proof.
  intros Hlen. destruct iv as [| x0 [| x1 iv]]; simpl in Hlen; try lia;
    reflexivity.
Qed.

Lemma checked_nonempty (f : list C) :
  f <> [] -> tr f = Ok (sums f).
Proof. destruct f; [contradiction | reflexivity]. Qed.

Lemma transform_returns (iv : list R) (f : list C) :
  (2 <= length iv)%nat -> (length iv <= length f)%nat ->
  exists rv F,
    transform_on_grid tr s iv f = Ok (rv, F) /\
    length rv = length iv /\ length F = length iv /\
    Sorted Rle rv /\
    Permutation rv (map (fun x => 2 * PI * x)
                        (FFT.fftfreq (length iv) (nth 1 iv 0 - nth 0 iv 0))).
Proof.
  intros Hiv Hf.
  assert (Hne : f <> []) by (destruct f; [simpl in Hf; lia | discriminate]).
  destruct iv as [| x0 [| x1 iv]]; simpl in Hiv; try lia.
  set (grid := x0 :: x1 :: iv) in *.
  unfold transform_on_grid.
  change (Numpy.getitem grid 1) with (Ok x1).
  change (Numpy.getitem grid 0) with (Ok x0).
  rewrite !bind_Ok. change (nth 1 grid 0) with x1.
  change (nth 0 grid 0) with x0.
  set (rv0 := map (fun x => 2 * PI * x)
                  (FFT.fftfreq (length grid) (x1 - x0))).
  assert (Hrv0 : length rv0 = length grid)
    by (unfold rv0; rewrite length_map; apply fftfreq_length).
  pose proof (argsort_in_range rv0) as Hrange.
  assert (Hrange' : Forall (fun i => (i < length (sums f))%nat)
                           (argsort rv0)).
  { eapply Forall_impl; [| exact Hrange].
    intros i Hi. cbv beta in Hi. rewrite sums_length. lia. }
  rewrite (take_in_range rv0 (argsort rv0) 0 Hrange), bind_Ok.
  rewrite (checked_nonempty f Hne), bind_Ok.
  rewrite (take_in_range (sums f) (argsort rv0) C0 Hrange'), !bind_Ok.
  rewrite broadcast2_same_length
    by (unfold phase; rewrite !length_map; reflexivity).
  rewrite bind_Ok. eexists. eexists. split; [reflexivity |].
  destruct (argsort_sorts rv0) as [Hsorted Hperm].
  split; [rewrite length_map, argsort_length; exact Hrv0 |].
  split.
  - rewrite length_map, length_combine. unfold phase.
    rewrite !length_map, argsort_length, Hrv0. apply Nat.min_id.
  - split; assumption.
Qed.

Lemma transform_empty_function (iv : list R) :
  (2 <= length iv)%nat ->
  transform_on_grid tr s iv [] = Raise ValueError.
Proof.
  intros Hiv.
  destruct iv as [| x0 [| x1 iv]]; simpl in Hiv; try lia.
  set (grid := x0 :: x1 :: iv) in *.
  unfold transform_on_grid.
  change (Numpy.getitem grid 1) with (Ok x1).
  change (Numpy.getitem grid 0) with (Ok x0).
  rewrite !bind_Ok.
  set (rv0 := map (fun x => 2 * PI * x)
                  (FFT.fftfreq (length grid) (x1 - x0))).
  rewrite (take_in_range rv0 (argsort rv0) 0 (argsort_in_range rv0)).
  rewrite bind_Ok. reflexivity.
Qed.

Lemma transform_short_function (iv : list R) (f : list C) :
  (2 <= length iv)%nat -> (1 <= length f < length iv)%nat ->
  transform_on_grid tr s iv f = Raise IndexError.
Proof.
  intros Hiv [Hpos Hf].
  assert (Hne : f <> []) by (destruct f; [simpl in Hpos; lia | discriminate]).
  destruct iv as [| x0 [| x1 iv]]; simpl in Hiv; try lia.
  set (grid := x0 :: x1 :: iv) in *.
  unfold transform_on_grid.
  change (Numpy.getitem grid 1) with (Ok x1).
  change (Numpy.getitem grid 0) with (Ok x0).
  rewrite !bind_Ok.
  set (rv0 := map (fun x => 2 * PI * x)
                  (FFT.fftfreq (length grid) (x1 - x0))).
  assert (Hrv0 : length rv0 = length grid)
    by (unfold rv0; rewrite length_map; apply fftfreq_length).
  rewrite (take_in_range rv0 (argsort rv0) 0 (argsort_in_range rv0)).
  rewrite bind_Ok, (checked_nonempty f Hne), bind_Ok.
  rewrite take_out_of_range; [reflexivity |].
  apply Exists_exists. exists (length grid - 1)%nat. split.
  - apply (Permutation_in _ (Permutation_sym (argsort_perm rv0))).
    apply in_seq. rewrite Hrv0. simpl. lia.
  - rewrite sums_length. lia.
Qed.

Lemma transform_Ok_lengths (iv : list R) (f : list C)
      (rv : list R) (F : list C) :
  transform_on_grid tr s iv f = Ok (rv, F) ->
  (2 <= length iv <= length f)%nat /\
  length rv = length iv /\ length F = length iv /\ Sorted Rle rv.
Proof.
  intros H.
  destruct (Nat.lt_ge_cases (length iv) 2) as [Hshort | Hiv].
  { rewrite transform_short_grid in H by exact Hshort. discriminate. }
  destruct (Nat.lt_ge_cases (length f) (length iv)) as [Hf | Hf].
  { destruct f as [| c f].
    - rewrite transform_empty_function in H by exact Hiv. discriminate.
    - rewrite transform_short_function in H
        by (try exact Hiv; simpl in *; lia).
      discriminate. }
  destruct (transform_returns iv f Hiv Hf)
    as [rv' [F' [H' [Hrv [HF [Hsorted _]]]]]].
  rewrite H' in H. injection H as <- <-. repeat split; assumption.
Qed.

End Transform.

(** X18. On a grid of at least 2 points whose first two differ, and a
    function with at least as many samples, [Fourier] and [InverseFourier] both return: the reciprocal
    axis and the transformed values have the length of the grid, and the
    reciprocal axis is in ascending order and is a rearrangement of
    [2 pi fftfreq(len(iv), iv[1] - iv[0])]. *)
Theorem Fourier_returns_ascending_axis (iv : list R) (f : list C) :
  (2 <= length iv)%nat -> nth 1 iv 0 <> nth 0 iv 0 ->
  (length iv <= length f)%nat ->
  forall transform, transform = Fourier \/ transform = InverseFourier ->
  exists rv F,
    transform iv f = Ok (rv, F) /\
    length rv = length iv /\ length F = length iv /\
    Sorted Rle rv /\
    Permutation rv (map (fun x => 2 * PI * x)
                        (FFT.fftfreq (length iv) (nth 1 iv 0 - nth 0 iv 0))).
Proof.
  intros Hiv _ Hf transform [-> | ->].
  - apply (transform_returns FFT.fft fft_length (-1) iv f Hiv Hf).
  - apply (transform_returns FFT.ifft ifft_length 1 iv f Hiv Hf).
Qed.

Lemma Fourier_returns_ascending_axis_witness :
  exists rv F,
    Fourier [0; 1; 2] [C1; C0; C0] = Ok (rv, F) /\
    length rv = length [0; 1; 2] /\ length F = length [0; 1; 2] /\
    Sorted Rle rv /\
    Permutation rv (map (fun x => 2 * PI * x)
                        (FFT.fftfreq (length [0; 1; 2])
                                     (nth 1 [0; 1; 2] 0
                                      - nth 0 [0; 1; 2] 0))).
Proof.
  apply (Fourier_returns_ascending_axis [0; 1; 2] [C1; C0; C0]
           ltac:(simpl; lia) ltac:(simpl; lra) ltac:(simpl; lia) Fourier).
  left. reflexivity.
Defined.

(** X19. [Fourier] and [InverseFourier] raise an index error on a grid of
    fewer than 2 points.  On a grid of at least 2 points they raise a value
    error on the empty function (from [np.fft]) and an index error on a
    non-empty function with fewer samples than the grid; a function with
    more samples than the grid is accepted. *)
Theorem Fourier_index_errors (iv : list R) (f : list C) :
  ((length iv < 2)%nat ->
   Fourier iv f = Raise IndexError /\
   InverseFourier iv f = Raise IndexError) /\
  ((2 <= length iv)%nat -> f = [] ->
   Fourier iv f = Raise ValueError /\
   InverseFourier iv f = Raise ValueError) /\
  ((2 <= length iv)%nat -> (1 <= length f < length iv)%nat ->
   Fourier iv f = Raise IndexError /\
   InverseFourier iv f = Raise IndexError) /\
  ((2 <= length iv)%nat -> (length iv < length f)%nat ->
   exists rv F, Fourier iv f = Ok (rv, F)).
Proof.
  split; [| split; [| split]].
  - intros Hshort. split; apply transform_short_grid; exact Hshort.
  - intros Hiv ->. split.
    + apply (transform_empty_function FFT.fft (-1) iv Hiv).
    + apply (transform_empty_function FFT.ifft 1 iv Hiv).
  - intros Hiv Hf. split.
    + apply (transform_short_function FFT.fft fft_length); assumption.
    + apply (transform_short_function FFT.ifft ifft_length); assumption.
  - intros Hiv Hf.
    destruct (transform_returns FFT.fft fft_length (-1) iv f Hiv)
      as [rv [F [H _]]]; [lia |].
    exists rv, F. exact H.
Qed.

Lemma Fourier_index_errors_witness :
  (Fourier [0] [C1] = Raise IndexError /\
   InverseFourier [0] [C1] = Raise IndexError) /\
  (Fourier [0; 1] [] = Raise ValueError /\
   InverseFourier [0; 1] [] = Raise ValueError) /\
  (Fourier [0; 1; 2] [C1; C0] = Raise IndexError /\
   InverseFourier [0; 1; 2] [C1; C0] = Raise IndexError) /\
  (exists rv F, Fourier [0; 1] [C1; C0; C0] = Ok (rv, F)).
Proof.
  split; [| split; [| split]].
  - apply (proj1 (Fourier_index_errors [0] [C1])). simpl. lia.
  - apply (proj1 (proj2 (Fourier_index_errors [0; 1] [])));
      [simpl; lia | reflexivity].
  - apply (proj1 (proj2 (proj2 (Fourier_index_errors [0; 1; 2] [C1; C0]))));
      simpl; lia.
  - apply (proj2 (proj2 (proj2 (Fourier_index_errors
                                  [0; 1] [C1; C0; C0]))));
      simpl; lia.
Defined.

(** ** [FourierSpectralFunction] and [GeneratingFunction] *)

Lemma mapM_nth {A B : Type} (f : A -> result B) (l : list A) (bs : list B)
      (j : nat) (da : A) (db : B) :
  mapM f l = Ok bs -> (j < length l)%nat ->
  f (nth j l da) = Ok (nth j bs db).
Proof.
  revert bs j. induction l as [| a l IH]; intros bs j H Hj;
    [simpl in Hj; lia |].
  cbn [mapM] in H.
  apply bind_Ok_inv in H. destruct H as [b [Hb H]].
  apply bind_Ok_inv in H. destruct H as [bs' [Hbs H]].
  injection H as <-. destruct j as [| j]; [exact Hb |].
  cbn [nth]. apply IH; [exact Hbs | simpl in Hj; lia].
Qed.

Lemma phase_at_zero (s : R) (Ek : list R) :
  phase s Ek 0 = map (fun _ => C1) Ek.
Proof.
  unfold phase. apply map_ext. intros ek.
  apply Cexp_zero; simpl; ring.
Qed.

Lemma dot_with_ones (Sk Ek : list R) :
  length Sk = length Ek ->
  np_dot Sk (map (fun _ => C1) Ek) = Ok (RtoC (Numpy.sum Sk)).
Proof.
  intros Hlen. unfold np_dot. rewrite length_map, Hlen, Nat.eqb_refl.
  f_equal. unfold Numpy.sum. revert Ek Hlen.
  induction Sk as [| s Sk IH]; intros [| ek Ek] Hlen; try discriminate;
    [reflexivity |].
  cbn [map combine fold_right fst snd].
  rewrite IH by (simpl in Hlen; lia).
  apply C_eq; simpl; ring.
Qed.

(** X20. When [FourierSpectralFunction] returns from an energy grid whose
    first two points differ, the time axis, the
    transformed [S(t)] and the closed-form [S(t)] all have the length of the
    energy grid, the time axis is in ascending order, and wherever the time
    is 0 the closed form equals the total Huang-Rhys factor [sum(Sk)]. *)
Theorem FourierSpectralFunction_shape_and_origin
        (Sk Ek S_E E_meV t_meV : list R) (S_t S_t_exact : list C) :
  nth 1 E_meV 0 <> nth 0 E_meV 0 ->
  FourierSpectralFunction Sk Ek S_E E_meV = Ok (t_meV, S_t, S_t_exact) ->
  length t_meV = length E_meV /\
  length S_t = length E_meV /\
  length S_t_exact = length E_meV /\
  Sorted Rle t_meV /\
  forall j, (j < length E_meV)%nat -> nth j t_meV 0 = 0 ->
            nth j S_t_exact C0 = RtoC (Numpy.sum Sk).
Proof.
  unfold FourierSpectralFunction. intros _ H.
  apply bind_Ok_inv in H. destruct H as [[t S] [HF H]].
  apply bind_Ok_inv in H. destruct H as [Sx [HSx H]].
  injection H as <- <- <-.
  apply (transform_Ok_lengths FFT.fft fft_length) in HF.
  destruct HF as [_ [Ht [HS Hsorted]]].
  split; [exact Ht |]. split; [exact HS |].
  split; [rewrite (mapM_length _ _ _ HSx); exact Ht |].
  split; [exact Hsorted |].
  intros j Hj Hzero.
  pose proof (mapM_nth _ _ _ j 0 C0 HSx ltac:(lia)) as Hdot.
  cbv beta in Hdot. rewrite Hzero, phase_at_zero in Hdot.
  destruct (Nat.eq_dec (length Sk) (length Ek)) as [Heq | Hne].
  - rewrite (dot_with_ones Sk Ek Heq) in Hdot.
    injection Hdot as Hdot. symmetry. exact Hdot.
  - unfold np_dot in Hdot. rewrite length_map in Hdot.
    destruct (Nat.eqb_spec (length Sk) (length Ek));
      [contradiction | discriminate].
Qed.

Lemma FourierSpectralFunction_unit_impulse :
  exists S_t_exact,
    FourierSpectralFunction [2] [50] [1; 0] [0; 1]
    = Ok ([- PI; 0], [C1; C1], S_t_exact).
Proof.
  unfold FourierSpectralFunction.
  change (map RtoC [1; 0]) with [C1; C0].
  rewrite Fourier_unit_impulse, bind_Ok. eexists. reflexivity.
Qed.

Lemma FourierSpectralFunction_shape_and_origin_witness :
  exists S_t_exact,
    FourierSpectralFunction [2] [50] [1; 0] [0; 1]
    = Ok ([- PI; 0], [C1; C1], S_t_exact) /\
    length S_t_exact = length [0; 1] /\
    Sorted Rle [- PI; 0] /\
    forall j, (j < length [0; 1])%nat -> nth j [- PI; 0] 0 = 0 ->
              nth j S_t_exact C0 = RtoC (Numpy.sum [2]).
Proof.
  destruct FourierSpectralFunction_unit_impulse as [Sx H].
  exists Sx. split; [exact H |].
  apply (FourierSpectralFunction_shape_and_origin
           [2] [50] [1; 0] [0; 1] _ _ _ ltac:(simpl; lra) H).
Defined.

(** X21. [GeneratingFunction] keeps the length of [S_t] and gives exactly
    1 wherever [S_t] equals the total Huang-Rhys factor [sum(Sk)]. *)
Theorem GeneratingFunction_properties (Sk : list R) (S_t : list C) :
  length (GeneratingFunction Sk S_t) = length S_t /\
  forall j, (j < length S_t)%nat ->
            nth j S_t C0 = RtoC (Numpy.sum Sk) ->
            nth j (GeneratingFunction Sk S_t) C0 = C1.
Proof.
  unfold GeneratingFunction. split; [apply length_map |].
  intros j Hj Hval.
  set (g := fun z : C => Cexp (mkC (Re z - Numpy.sum Sk) (Im z))).
  rewrite nth_indep with (d' := g C0) by (rewrite length_map; exact Hj).
  rewrite (map_nth g). unfold g. rewrite Hval.
  apply Cexp_zero; simpl; ring.
Qed.

Lemma GeneratingFunction_properties_witness :
  nth 0 (GeneratingFunction [1; 2] [RtoC 3; C0]) C0 = C1.
Proof.
  apply (proj2 (GeneratingFunction_properties [1; 2] [RtoC 3; C0]) 0%nat).
  - simpl. lia.
  - apply C_eq; simpl; ring.
Defined.

(** ** [OpticalSpectralFunction] *)

Lemma OpticalSpectralFunction_aligned (G_t : list C) (t_meV : list R)
      (zpl gamma : R) :
  length G_t = length t_meV ->
  exists damped,
    length damped = length t_meV /\
    OpticalSpectralFunction G_t t_meV zpl gamma
    = (p <- Fourier t_meV damped ;;
       let '(E_meV, A_E) := p in
       Ok (E_meV, map (Cscale (1 / INR (length t_meV))) A_E)).
Proof.
  intros Hlen. unfold OpticalSpectralFunction.
  rewrite broadcast2_same_length by (rewrite length_map; exact Hlen).
  rewrite bind_Ok.
  rewrite broadcast2_same_length
    by (rewrite !length_map, length_combine, length_map, Hlen;
        apply Nat.min_id).
  rewrite bind_Ok. eexists. split; [| reflexivity].
  rewrite !length_map, !length_combine, !length_map, length_combine.
  rewrite length_map, Hlen. rewrite !Nat.min_id. reflexivity.
Qed.

(** X22. With as many samples of [G_t] as of [t_meV]:
    [OpticalSpectralFunction] raises an index error when there are fewer
    than 2 of them, and otherwise (the first two times being different)
    returns an ascending energy axis and a spectrum, both of that same
    length.  Lengths that differ with neither
    equal to 1 raise a shape error. *)
Theorem OpticalSpectralFunction_shapes (G_t : list C) (t_meV : list R)
        (zpl gamma : R) :
  (length G_t = length t_meV -> (2 <= length t_meV)%nat ->
   nth 1 t_meV 0 <> nth 0 t_meV 0 ->
   exists E_meV A_E,
     OpticalSpectralFunction G_t t_meV zpl gamma = Ok (E_meV, A_E) /\
     length E_meV = length t_meV /\ length A_E = length t_meV /\
     Sorted Rle E_meV) /\
  (length G_t = length t_meV -> (length t_meV < 2)%nat ->
   OpticalSpectralFunction G_t t_meV zpl gamma = Raise IndexError) /\
  (length G_t <> length t_meV -> length G_t <> 1%nat ->
   length t_meV <> 1%nat ->
   OpticalSpectralFunction G_t t_meV zpl gamma = Raise ValueError).
Proof.
  split; [| split].
  - intros Hlen Ht _.
    destruct (OpticalSpectralFunction_aligned G_t t_meV zpl gamma Hlen)
      as [damped [Hd ->]].
    destruct (transform_returns FFT.fft fft_length (-1) t_meV damped Ht)
      as [E [A [HF [HE [HA [Hsorted _]]]]]]; [lia |].
    unfold Fourier, FFT.np_fft. rewrite HF, bind_Ok.
    exists E, (map (Cscale (1 / INR (length t_meV))) A).
    split; [reflexivity |]. rewrite length_map. repeat split; assumption.
  - intros Hlen Ht.
    destruct (OpticalSpectralFunction_aligned G_t t_meV zpl gamma Hlen)
      as [damped [Hd ->]].
    unfold Fourier, FFT.np_fft.
    rewrite transform_short_grid by exact Ht. reflexivity.
  - intros Hne HG Ht. unfold OpticalSpectralFunction.
    rewrite broadcast2_Raise; [reflexivity | | exact HG |];
      rewrite length_map; assumption.
Qed.

Lemma OpticalSpectralFunction_shapes_witness :
  (exists E_meV A_E,
      OpticalSpectralFunction [C1; C1] [0; 1] 1945 4 = Ok (E_meV, A_E) /\
      length E_meV = length [0; 1] /\ length A_E = length [0; 1] /\
      Sorted Rle E_meV) /\
  OpticalSpectralFunction [C1] [0] 1945 4 = Raise IndexError /\
  OpticalSpectralFunction [C1; C1] [0; 1; 2] 1945 4 = Raise ValueError.
Proof.
  split; [| split].
  - apply (proj1 (OpticalSpectralFunction_shapes [C1; C1] [0; 1] 1945 4));
      [reflexivity | simpl; lia | simpl; lra].
  - apply (proj1 (proj2 (OpticalSpectralFunction_shapes [C1] [0] 1945 4)));
      [reflexivity | simpl; lia].
  - apply (proj2 (proj2 (OpticalSpectralFunction_shapes
                           [C1; C1] [0; 1; 2] 1945 4)));
      simpl; lia.
Defined.

(** ** [LuminescenceIntensity], further *)

Lemma compress_filter {A : Type} (f : A -> bool) (l : list A) :
  Numpy.compress l (map f l) = filter f l.
Proof.
  induction l as [| a l IH]; [reflexivity |].
  cbn [map Numpy.compress filter]. rewrite IH. reflexivity.
Qed.

Lemma window_bounds (zpl e : R) :
  window zpl e = true -> zpl - 500 <= e <= zpl + 100.
Proof.
  unfold window, Rleb. intros H. apply andb_prop in H. destruct H as [H1 H2].
  destruct (Rle_dec (zpl - 500) e); [| discriminate].
  destruct (Rle_dec e (zpl + 100)); [| discriminate].
  split; assumption.
Qed.

Lemma short_grid_raises {T : Type} `{Scalar T}
      (integrand : list T) (iv : list R) (equally_spaced : bool) :
  (length iv < 2)%nat ->
  Trapezoidal integrand iv equally_spaced = Raise IndexError.
Proof.
  intros Hlen. destruct iv as [| x0 [| x1 iv]]; simpl in Hlen; try lia;
    reflexivity.
Qed.

Lemma LuminescenceIntensity_inversion
      (E_meV : list R) (A_E : list C) (zpl : R)
      (E_w : list R) (L_E : list C) :
  LuminescenceIntensity E_meV A_E zpl = Ok (E_w, L_E) ->
  E_w = Numpy.compress E_meV (map (window zpl) E_meV) /\
  length L_E = length E_w /\
  (2 <= length E_w)%nat.
Proof.
  unfold LuminescenceIntensity. intros H.
  apply bind_Ok_inv in H. destruct H as [A' [HA H]].
  apply bind_Ok_inv in H. destruct H as [E' [HE H]].
  apply bind_Ok_inv in H. destruct H as [w [Hw H]].
  apply bind_Ok_inv in H. destruct H as [norm [Hnorm H]].
  injection H as <- <-.
  unfold Numpy.bool_index in HA, HE. rewrite length_map in HA, HE.
  rewrite Nat.eqb_refl in HE. injection HE as <-.
  destruct (Nat.eqb_spec (length A_E) (length E_meV)) as [Hlen |];
    [| discriminate].
  injection HA as <-.
  assert (Hsame : length (Numpy.compress E_meV (map (window zpl) E_meV))
                  = length (Numpy.compress A_E (map (window zpl) E_meV)))
    by (apply compress_length; rewrite length_map; congruence).
  rewrite broadcast2_same_length in Hw by exact Hsame.
  injection Hw as <-.
  split; [reflexivity |].
  split.
  - rewrite !length_map, length_combine, <- Hsame. apply Nat.min_id.
  - destruct (Nat.lt_ge_cases
                (length (Numpy.compress E_meV (map (window zpl) E_meV))) 2)
      as [Hshort | Hok]; [| exact Hok].
    rewrite short_grid_raises in Hnorm by exact Hshort. discriminate.
Qed.

Lemma filter_window_bounds (zpl : R) (E_meV : list R) :
  Forall (fun e => zpl - 500 <= e <= zpl + 100) (filter (window zpl) E_meV).
Proof.
  apply Forall_forall. intros e He.
  apply filter_In in He. apply window_bounds. apply He.
Qed.

(** X23. When [LuminescenceIntensity] returns, the grid it returns is the
    sub-sequence of the input energies lying in [[zpl - 500, zpl + 100]], it
    has at least 2 points, and the lineshape has the same length. *)
Theorem LuminescenceIntensity_window
        (E_meV : list R) (A_E : list C) (zpl : R)
        (E_w : list R) (L_E : list C) :
  LuminescenceIntensity E_meV A_E zpl = Ok (E_w, L_E) ->
  E_w = filter (window zpl) E_meV /\
  Forall (fun e => zpl - 500 <= e <= zpl + 100) E_w /\
  length L_E = length E_w /\
  (2 <= length E_w)%nat.
Proof.
  intros H. apply LuminescenceIntensity_inversion in H.
  destruct H as [HE [HL Hlen]].
  rewrite compress_filter in HE.
  split; [exact HE |]. split; [| split; assumption].
  rewrite HE. apply filter_window_bounds.
Qed.

Lemma LuminescenceIntensity_returns_two_points :
  exists L_E, LuminescenceIntensity [0; 1] [C1; C1] 0 = Ok ([0; 1], L_E).
Proof.
  unfold LuminescenceIntensity.
  assert (Hmask : map (window 0) [0; 1] = [true; true]).
  { simpl. rewrite !window_inside by lra. reflexivity. }
  rewrite Hmask. eexists. reflexivity.
Qed.

Lemma LuminescenceIntensity_window_witness :
  [0; 1] = filter (window 0) [0; 1] /\
  Forall (fun e => 0 - 500 <= e <= 0 + 100) [0; 1] /\
  (2 <= length [0; 1])%nat.
Proof.
  destruct LuminescenceIntensity_returns_two_points as [L_E H].
  destruct (LuminescenceIntensity_window _ _ _ _ _ H) as [H1 [H2 [_ H4]]].
  repeat split; assumption.
Defined.

(** X24. [LuminescenceIntensity] raises an index error when the spectrum
    and the energy grid differ in length, and when fewer than 2 energies lie
    in the window [[zpl - 500, zpl + 100]]. *)
Theorem LuminescenceIntensity_index_errors
        (E_meV : list R) (A_E : list C) (zpl : R) :
  (length A_E <> length E_meV ->
   LuminescenceIntensity E_meV A_E zpl = Raise IndexError) /\
  (length A_E = length E_meV ->
   (length (filter (window zpl) E_meV) < 2)%nat ->
   LuminescenceIntensity E_meV A_E zpl = Raise IndexError).
Proof.
  split.
  - intros Hne. unfold LuminescenceIntensity, Numpy.bool_index.
    rewrite length_map.
    destruct (Nat.eqb_spec (length A_E) (length E_meV));
      [contradiction | reflexivity].
  - intros Hlen Hshort. unfold LuminescenceIntensity.
    rewrite !bool_index_Ok by (rewrite length_map; congruence).
    rewrite !bind_Ok.
    rewrite broadcast2_same_length
      by (apply compress_length; rewrite length_map; congruence).
    rewrite bind_Ok, short_grid_raises; [reflexivity |].
    rewrite compress_filter. exact Hshort.
Qed.

Lemma LuminescenceIntensity_index_errors_witness :
  LuminescenceIntensity [0; 1] [C1] 0 = Raise IndexError /\
  LuminescenceIntensity [0; 1000] [C1; C1] 0 = Raise IndexError.
Proof.
  split.
  - apply (proj1 (LuminescenceIntensity_index_errors [0; 1] [C1] 0)).
    simpl. lia.
  - apply (proj2 (LuminescenceIntensity_index_errors [0; 1000] [C1; C1] 0));
      [reflexivity |].
    simpl. rewrite (window_inside 0 0) by lra.
    unfold window. rewrite (Rleb_false 1000 (0 + 100)) by lra.
    rewrite andb_false_r. simpl. lia.
Defined.


(** ** [CalculateSpectrum] after the files are read *)

Lemma TimeScaling_forward (t : R) : TimeScaling t false = t / 658.2119.
Proof. reflexivity. Qed.




(** X27. When the Huang-Rhys stage of [CalculateSpectrum] returns from [n]
    loaded frequencies and [n] loaded modes, the mode energies, the
    configuration coordinates and the partial Huang-Rhys factors all have
    length [n / 2]. *)
Theorem CalculateSpectrum_HuangRhys_lengths
        (masses : list R) (R_es R_gs : list vec3)
        (freqs : list R) (modes : list (list vec3)) (n : nat)
        (Ek qk Sk : list R) :
  length freqs = n -> length modes = n ->
  CalculateSpectrum_HuangRhys masses R_es R_gs freqs modes
  = Ok (Ek, qk, Sk) ->
  length Ek = (n / 2)%nat /\ length qk = (n / 2)%nat /\
  length Sk = (n / 2)%nat.
Proof.
  intros Hf Hm H. unfold CalculateSpectrum_HuangRhys in H.
  apply bind_Ok_inv in H. destruct H as [qk' [Hqk H]].
  apply bind_Ok_inv in H. destruct H as [Sk' [HSk H]].
  injection H as <- <- <-.
  assert (Hhalf : (n / 2 <= n)%nat)
    by (apply Nat.Div0.div_le_upper_bound; lia).
  assert (Hfk : length (firstn (length freqs / 2) freqs) = (n / 2)%nat)
    by (rewrite Hf; apply firstn_length_le; lia).
  assert (Hq : length qk' = (n / 2)%nat).
  { unfold ConfigCoordinates in Hqk.
    apply bind_Ok_inv in Hqk. destruct Hqk as [Rd [_ Hqk]].
    apply bind_Ok_inv in Hqk. destruct Hqk as [mR [_ Hqk]].
    unfold project in Hqk. rewrite (mapM_length _ _ _ Hqk).
    rewrite Hm. apply firstn_length_le. lia. }
  split; [unfold FreqToEnergy; rewrite length_map; exact Hfk |].
  split; [exact Hq |].
  unfold PartialHR in HSk.
  rewrite broadcast2_same_length in HSk by congruence.
  assert (HSk' : Sk' = map (fun p => PartialHR_term (fst p) (snd p))
                           (combine (firstn (length freqs / 2) freqs) qk'))
    by congruence.
  rewrite HSk', length_map, length_combine, Hfk, Hq. apply Nat.min_id.
Qed.

Lemma HuangRhys_two_modes :
  exists qk Sk,
    CalculateSpectrum_HuangRhys [1] [(1, 0, 0)] [(0, 0, 0)] [1; 7]
                                [[(1, 0, 0)]; [(0, 1, 0)]]
    = Ok (FreqToEnergy [1], qk, Sk) /\
    length Sk = 1%nat.
Proof. eexists. eexists. split; reflexivity. Qed.

Lemma CalculateSpectrum_HuangRhys_lengths_witness :
  exists qk Sk,
    CalculateSpectrum_HuangRhys [1] [(1, 0, 0)] [(0, 0, 0)] [1; 7]
                                [[(1, 0, 0)]; [(0, 1, 0)]]
    = Ok (FreqToEnergy [1], qk, Sk) /\
    length (FreqToEnergy [1]) = (2 / 2)%nat /\ length qk = (2 / 2)%nat /\
    length Sk = (2 / 2)%nat.
Proof.
  destruct HuangRhys_two_modes as [qk [Sk [H _]]].
  exists qk, Sk. split; [exact H |].
  apply (CalculateSpectrum_HuangRhys_lengths
           [1] [(1, 0, 0)] [(0, 0, 0)] [1; 7]
           [[(1, 0, 0)]; [(0, 1, 0)]] 2 _ qk Sk eq_refl eq_refl H).
Defined.



Lemma FourierSpectralFunction_lengths
      (Sk Ek S_E E_meV t_meV : list R) (S_t S_t_exact : list C) :
  FourierSpectralFunction Sk Ek S_E E_meV = Ok (t_meV, S_t, S_t_exact) ->
  (2 <= length E_meV)%nat /\
  length t_meV = length E_meV /\
  length S_t = length E_meV /\
  length S_t_exact = length E_meV.
Proof.
  unfold FourierSpectralFunction. intros H.
  apply bind_Ok_inv in H. destruct H as [[t S] [HF H]].
  apply bind_Ok_inv in H. destruct H as [Sx [HSx H]].
  injection H as <- <- <-.
  apply (transform_Ok_lengths FFT.fft fft_length) in HF.
  destruct HF as [[Hge _] [Ht [HS _]]].
  rewrite (mapM_length _ _ _ HSx). repeat split; assumption.
Qed.

Lemma OpticalSpectralFunction_lengths (G_t : list C) (t_meV : list R)
      (zpl gamma : R) (E_meV : list R) (A_E : list C) :
  OpticalSpectralFunction G_t t_meV zpl gamma = Ok (E_meV, A_E) ->
  length E_meV = length t_meV /\ length A_E = length t_meV.
Proof.
  unfold OpticalSpectralFunction. intros H.
  apply bind_Ok_inv in H. destruct H as [shifted [_ H]].
  apply bind_Ok_inv in H. destruct H as [damped [_ H]].
  apply bind_Ok_inv in H. destruct H as [[E A] [HF H]].
  injection H as <- <-.
  apply (transform_Ok_lengths FFT.fft fft_length) in HF.
  destruct HF as [_ [HE [HA _]]].
  rewrite length_map. split; assumption.
Qed.

Lemma SpectralFunction_Ok_lengths (Sk Ek E_meV S_E : list R) (sigma : R)
      (Lorentz : bool) :
  SpectralFunction Sk Ek E_meV sigma Lorentz = Ok S_E ->
  length S_E = length E_meV /\
  (E_meV <> [] -> length Sk = length Ek).
Proof.
  rewrite SpectralFunction_kernel. intros H.
  split; [apply (mapM_length _ _ _ H) |].
  intros HE. destruct E_meV as [| e E_meV]; [contradiction |].
  cbn [mapM] in H. apply bind_Ok_inv in H. destruct H as [b [Hb _]].
  unfold np_dot in Hb. rewrite length_map in Hb.
  destruct (Nat.eqb_spec (length Sk) (length Ek)); [assumption |].
  discriminate.
Qed.

Lemma filter_length {A : Type} (f : A -> bool) (l : list A) :
  (length (filter f l) <= length l)%nat.
Proof.
  induction l as [| a l IH]; [reflexivity |].
  cbn [filter]. destruct (f a); simpl; lia.
Qed.

(** X29. When [CalculateSpectrum] returns, the energy grid has at least 2
    points, and [S_E], the time axis, both [S(t)], [G_t] and [A_E] all have
    its length.  The energy axis returned beside [A_E] is not the axis of
    [A_E] but the restricted one of [L_E]: it has the length of [L_E], at
    least 2 and at most that of [A_E], and all its energies lie in
    [[zpl - 500, zpl + 100]]. *)
Theorem CalculateSpectrum_loaded_shapes
        (masses : list R) (R_es R_gs : list vec3)
        (freqs : list R) (modes : list (list vec3))
        (zpl tmax gamma : R) (s : spectrum) :
  CalculateSpectrum_loaded masses R_es R_gs freqs modes zpl tmax gamma
  = Ok s ->
  let N := length (out_E_meV_positive s) in
  (2 <= N)%nat /\
  length (out_S_E s) = N /\
  length (out_t_fs s) = N /\
  length (out_S_t s) = N /\
  length (out_S_t_exact s) = N /\
  length (out_G_t s) = N /\
  length (out_A_E s) = N /\
  length (out_Sk s) = length (out_Ek s) /\
  length (out_L_E s) = length (out_E_meV s) /\
  (2 <= length (out_E_meV s) <= N)%nat /\
  Forall (fun e => zpl - 500 <= e <= zpl + 100) (out_E_meV s).
Proof.
  unfold CalculateSpectrum_loaded. intros H.
  apply bind_Ok_inv in H. destruct H as [[[Ek qk] Sk] [_ H]].
  apply bind_Ok_inv in H. destruct H as [E_pos [_ H]].
  apply bind_Ok_inv in H. destruct H as [S_E [HSE H]].
  apply bind_Ok_inv in H. destruct H as [[[t_meV S_t] S_x] [Hst H]].
  apply bind_Ok_inv in H. destruct H as [[E_meV A_E] [Ha H]].
  apply bind_Ok_inv in H. destruct H as [[E_w L_E] [Hl H]].
  injection H as <-. cbn [out_E_meV_positive out_S_E out_t_fs out_S_t
    out_S_t_exact out_G_t out_A_E out_Sk out_Ek out_L_E out_E_meV].
  apply SpectralFunction_Ok_lengths in HSE. destruct HSE as [HSE HSk].
  apply FourierSpectralFunction_lengths in Hst.
  destruct Hst as [HN [Ht [HSt HSx]]].
  apply OpticalSpectralFunction_lengths in Ha. destruct Ha as [HE HA].
  apply LuminescenceIntensity_inversion in Hl.
  destruct Hl as [Hfil [HL Hw2]].
  rewrite compress_filter in Hfil.
  assert (Hwin : Forall (fun e => zpl - 500 <= e <= zpl + 100) E_w)
    by (rewrite Hfil; apply filter_window_bounds).
  split; [exact HN |]. split; [exact HSE |].
  split; [unfold TimeScaling_array; rewrite length_map; exact Ht |].
  split; [exact HSt |]. split; [exact HSx |].
  split; [unfold GeneratingFunction; rewrite length_map; exact HSt |].
  split; [congruence |].
  split; [apply HSk; destruct E_pos; [simpl in HN; lia | discriminate] |].
  split; [exact HL |].
  split; [| exact Hwin].
  split; [exact Hw2 |].
  rewrite Hfil. rewrite <- Ht, <- HE. apply filter_length.
Qed.

Lemma ceil_unique (x : R) (z : Z) :
  IZR z - 1 < x <= IZR z -> Numpy.ceil x = z.
Proof.
  intros [Hlo Hhi]. destruct (ceil_bounds x) as [Clo Chi].
  assert (H1 : (z - 1 < Numpy.ceil x)%Z)
    by (apply lt_IZR; rewrite minus_IZR; lra).
  assert (H2 : (Numpy.ceil x - 1 < z)%Z)
    by (apply lt_IZR; rewrite minus_IZR; lra).
  lia.
Qed.

Lemma LuminescenceIntensity_defined
      (E_meV : list R) (A_E : list C) (zpl : R) :
  length A_E = length E_meV ->
  (2 <= length (filter (window zpl) E_meV))%nat ->
  exists L_E,
    LuminescenceIntensity E_meV A_E zpl
    = Ok (filter (window zpl) E_meV, L_E).
Proof.
  intros Hlen Hwin. unfold LuminescenceIntensity.
  rewrite !bool_index_Ok by (rewrite length_map; congruence).
  rewrite !bind_Ok.
  assert (Hsame : length (Numpy.compress E_meV (map (window zpl) E_meV))
                  = length (Numpy.compress A_E (map (window zpl) E_meV)))
    by (apply compress_length; rewrite length_map; congruence).
  rewrite broadcast2_same_length by exact Hsame.
  rewrite bind_Ok.
  match goal with
  | |- context [Trapezoidal ?w ?iv true] =>
      destruct (Trapezoidal_defined w iv) as [norm Hnorm]
  end.
  - rewrite compress_filter. exact Hwin.
  - rewrite length_map, length_combine, <- Hsame. apply Nat.min_id.
  - rewrite Hnorm, bind_Ok, compress_filter. eexists. reflexivity.
Qed.

Lemma grid_of_two_points :
  CalculateSpectrum_grid 100 (658.2119 * PI / 200) = Ok [0; 200].
Proof.
  pose proof PI_RGT_0 as HPI. unfold CalculateSpectrum_grid.
  destruct (Req_dec_T 100 0) as [H0 | _]; [lra |].
  rewrite TimeScaling_forward.
  replace (658.2119 * PI / 200 / 658.2119) with (PI / 200) by (field; lra).
  rewrite IV_Ok by lra. f_equal.
  replace (PI / (PI / 200)) with 200 by (field; lra).
  unfold Numpy.arange.
  rewrite (ceil_unique ((2.5 * 100 - 0) / 200) 2) by lra.
  simpl. f_equal; [ring | f_equal; ring].
Qed.

Lemma np_dot_defined {T : Type} `{Scalar T} (a : list R) (b : list T) :
  length a = length b -> exists r, np_dot a b = Ok r.
Proof.
  intros Hlen. unfold np_dot. rewrite Hlen, Nat.eqb_refl.
  eexists. reflexivity.
Qed.

Lemma FourierSpectralFunction_two_points
      (Sk Ek : list R) (s0 s1 x0 x1 : R) :
  length Sk = length Ek -> x0 < x1 ->
  exists S_t S_t_exact,
    FourierSpectralFunction Sk Ek [s0; s1] [x0; x1]
    = Ok ([- PI / (x1 - x0); 0], S_t, S_t_exact) /\
    length S_t = 2%nat.
Proof.
  intros Hlen Hlt. unfold FourierSpectralFunction, Fourier. cbn [map].
  rewrite (transform_on_two_points FFT.np_fft (-1) x0 x1 _ _ _
             Hlt (fft_two _ _)).
  rewrite bind_Ok. cbv beta iota.
  destruct (mapM_total (fun i => np_dot Sk (phase (-1) Ek i))
                       [- PI / (x1 - x0); 0]) as [Sx [HSx _]].
  { intros i _. apply np_dot_defined. unfold phase.
    rewrite length_map. exact Hlen. }
  rewrite HSx, bind_Ok. eexists. eexists. split; reflexivity.
Qed.

Lemma OpticalSpectralFunction_two_points
      (G_t : list C) (x0 x1 zpl gamma : R) :
  length G_t = 2%nat -> x0 < x1 ->
  exists A_E,
    OpticalSpectralFunction G_t [x0; x1] zpl gamma
    = Ok ([- PI / (x1 - x0); 0], A_E) /\
    length A_E = 2%nat.
Proof.
  intros Hlen Hlt.
  destruct (OpticalSpectralFunction_aligned G_t [x0; x1] zpl gamma Hlen)
    as [damped [Hd ->]].
  destruct damped as [| d0 [| d1 [| d2 damped]]]; try discriminate Hd.
  unfold Fourier.
  rewrite (transform_on_two_points FFT.np_fft (-1) x0 x1 _ _ _
             Hlt (fft_two _ _)).
  rewrite bind_Ok. cbv beta iota. eexists. split; reflexivity.
Qed.

Lemma run_on_two_grid_points :
  exists s,
    CalculateSpectrum_loaded [1] [(1, 0, 0)] [(0, 0, 0)] [1; 7]
                             [[(1, 0, 0)]; [(0, 1, 0)]]
                             100 (658.2119 * PI / 200) 4
    = Ok s.
Proof.
  pose proof PI_RGT_0 as HPI.
  destruct HuangRhys_two_modes as [qk [Sk [Hhr HSk]]].
  unfold CalculateSpectrum_loaded.
  rewrite Hhr, bind_Ok. cbv beta iota.
  rewrite grid_of_two_points, bind_Ok.
  rewrite SpectralFunction_value by (rewrite HSk; reflexivity).
  rewrite bind_Ok. cbn [map].
  destruct (FourierSpectralFunction_two_points
              Sk (FreqToEnergy [1])
              (mode_sum false 6 Sk (FreqToEnergy [1]) 0)
              (mode_sum false 6 Sk (FreqToEnergy [1]) 200) 0 200)
    as [S_t [S_x [Hst HSt]]]; [rewrite HSk; reflexivity | lra |].
  rewrite Hst, bind_Ok. cbv beta iota.
  assert (Ht0 : - PI / (200 - 0) < 0).
  { assert (0 < PI / (200 - 0)) by (apply Rdiv_lt_0_compat; lra).
    unfold Rdiv in *. lra. }
  destruct (OpticalSpectralFunction_two_points
              (GeneratingFunction Sk S_t) (- PI / (200 - 0)) 0 100 4)
    as [A_E [Ha HA]];
    [unfold GeneratingFunction; rewrite length_map; exact HSt
    | exact Ht0 |].
  rewrite Ha, bind_Ok. cbv beta iota.
  destruct (LuminescenceIntensity_defined
              [- PI / (0 - - PI / (200 - 0)); 0] A_E 100) as [L_E HL].
  - rewrite HA. reflexivity.
  - cbn [filter].
    replace (- PI / (0 - - PI / (200 - 0))) with (-200) by (field; lra).
    rewrite !window_inside by lra. simpl. lia.
  - rewrite HL, bind_Ok. eexists. reflexivity.
Qed.

Lemma CalculateSpectrum_loaded_shapes_witness :
  exists s,
    CalculateSpectrum_loaded [1] [(1, 0, 0)] [(0, 0, 0)] [1; 7]
                             [[(1, 0, 0)]; [(0, 1, 0)]]
                             100 (658.2119 * PI / 200) 4
    = Ok s /\
    let N := length (out_E_meV_positive s) in
    (2 <= N)%nat /\
    length (out_S_E s) = N /\
    length (out_t_fs s) = N /\
    length (out_S_t s) = N /\
    length (out_S_t_exact s) = N /\
    length (out_G_t s) = N /\
    length (out_A_E s) = N /\
    length (out_Sk s) = length (out_Ek s) /\
    length (out_L_E s) = length (out_E_meV s) /\
    (2 <= length (out_E_meV s) <= N)%nat /\
    Forall (fun e => 100 - 500 <= e <= 100 + 100) (out_E_meV s).
Proof.
  destruct run_on_two_grid_points as [s H].
  exists s. split; [exact H |].
  apply (CalculateSpectrum_loaded_shapes _ _ _ _ _ _ _ _ _ H).
Defined.
